(** * Flood fill and bounded undo/redo history of the drawing canvas

    A shallow embedding of the algorithmic core of [DrawingCanvas.tsx]:
    the undo/redo history ([saveToHistory], [undo], [redo]), the colour
    helpers ([getPixelColor], [setPixelColor], [colorsMatch], [hexToRgb])
    and the stack-based [floodFill], in both variants of the component
    (the 50-step variant without an iteration counter and the 30-step
    variant with [maxIterations]).

    Conventions.
    - JavaScript numbers that hold integers are [Z]; [undefined] read from
      an array is [None].
    - React state is threaded explicitly: an operation takes the state its
      closure captured and returns the state it sets.
    - An exception is a [Throw] completion. *)

From Stdlib Require Import ZArith List Ascii String Lia ZifyBool.
From Stdlib Require Import QArith Qround Qcanon.
From stdpp Require Import base tactics option list gmap fin_sets.

Local Open Scope Z_scope.

(** ** JavaScript completions *)

Inductive JsError : Type :=
| TypeError        (* property read on [undefined] *)
| IndexSizeError.  (* [getImageData] on an empty rectangle *)

Inductive Completion (A : Type) : Type :=
| Normal (a : A)
| Throw (e : JsError).
Arguments Normal {A} a.
Arguments Throw {A} e.

(** [arr[i]] for an integer [i]: [undefined] outside the array. *)
Definition at_index {A : Type} (arr : list A) (i : Z) : option A :=
  if i <? 0 then None else arr !! Z.to_nat i.

(** ** Undo/redo history *)

Module History.
Section Generic.

(** The entries are [DrawingState] objects; the history code never looks
    inside them, so the section is generic in their type. *)
Context {A : Type}.

(** [MAX] is the literal of [saveToHistory]: 50 in the first variant of
    the component, 30 in the second. *)
Variable MAX : Z.

Record HistoryState : Type := mkHistory {
  history : list A;
  historyStep : Z
}.

(** [useState([])] and [useState(-1)]. *)
Definition initial : HistoryState := mkHistory [] (-1).

Definition len (st : HistoryState) : Z := Z.of_nat (length (history st)).

(** [arr.slice(0, e)]: a negative [e] counts from the end, and the bounds
    are clamped to the array. *)
Definition slice0 (arr : list A) (e : Z) : list A :=
  let n := Z.of_nat (length arr) in
  let k := if e <? 0 then Z.max (n + e) 0 else Z.min e n in
  take (Z.to_nat k) arr.

(** [saveToHistory], with the snapshot it builds from the canvas passed in. *)
Definition saveToHistory (st : HistoryState) (snap : A) : HistoryState :=
  let newHistory := slice0 (history st) (historyStep st + 1) ++ [snap] in
  if Z.of_nat (length newHistory) >? MAX
  then (* newHistory.shift() *)
    mkHistory (drop 1 newHistory) (historyStep st)
  else
    mkHistory newHistory (historyStep st + 1).

(** [undo]: the entry whose [imageData] is put back on the canvas, with
    the new state; [None] when the guard fails and nothing happens. *)
Definition undo (st : HistoryState) : Completion (option (HistoryState * A)) :=
  if historyStep st >? 0 then
    let prevStep := historyStep st - 1 in
    match at_index (history st) prevStep with
    | None => Throw TypeError
    | Some e => Normal (Some (mkHistory (history st) prevStep, e))
    end
  else Normal None.

Definition redo (st : HistoryState) : Completion (option (HistoryState * A)) :=
  if historyStep st <? len st - 1 then
    let nextStep := historyStep st + 1 in
    match at_index (history st) nextStep with
    | None => Throw TypeError
    | Some e => Normal (Some (mkHistory (history st) nextStep, e))
    end
  else Normal None.

(** The [disabled] expressions of the two buttons, negated. *)
Definition canUndo (st : HistoryState) : bool := negb (historyStep st <=? 0).
Definition canRedo (st : HistoryState) : bool := negb (historyStep st >=? len st - 1).

(** The entry the cursor references. *)
Definition current (st : HistoryState) : option A :=
  at_index (history st) (historyStep st).

(** *** Sequences of operations *)

Inductive Op : Type :=
| Push (snap : A)
| Undo
| Redo.

(** The state after an operation; an operation that does nothing or throws
    leaves the state as it was. *)
Definition state_after (c : Completion (option (HistoryState * A)))
    (st : HistoryState) : HistoryState :=
  match c with
  | Normal (Some (st', _)) => st'
  | _ => st
  end.

Definition apply_op (st : HistoryState) (o : Op) : HistoryState :=
  match o with
  | Push snap => saveToHistory st snap
  | Undo => state_after (undo st) st
  | Redo => state_after (redo st) st
  end.

Definition run (ops : list Op) (st : HistoryState) : HistoryState :=
  fold_left apply_op ops st.

Definition push_all (snaps : list A) (st : HistoryState) : HistoryState :=
  fold_left saveToHistory snaps st.

(** The invariant of the states reached from [initial]. *)
Definition hist_inv (st : HistoryState) : Prop :=
  len st <= MAX /\
  ((history st = [] /\ historyStep st = -1) \/ 0 <= historyStep st < len st).

End Generic.
End History.

Arguments History.HistoryState : clear implicits.
Arguments History.Op : clear implicits.

(** ** Colours *)

Module Colors.

(** A colour object [{r, g, b, a}]. A channel read from the pixel array is
    a number, or [undefined] when the index is outside the array. *)
Record Color : Type := mkColor {
  r : option Z;
  g : option Z;
  b : option Z;
  a : option Z
}.

(** [getPixelColor(pixels, x, y, width)] *)
Definition getPixelColor (pixels : list Z) (x y width : Z) : Color :=
  let index := (y * width + x) * 4 in
  {| r := at_index pixels index;
     g := at_index pixels (index + 1);
     b := at_index pixels (index + 2);
     a := at_index pixels (index + 3) |}.

(** A store into a [Uint8ClampedArray]: the value is clamped to [0, 255]
    ([undefined] becomes 0) and a store outside the array is dropped. *)
Definition clamp8 (v : option Z) : Z :=
  match v with
  | None => 0
  | Some z => Z.max 0 (Z.min 255 z)
  end.

Definition store (pixels : list Z) (i : Z) (v : option Z) : list Z :=
  if i <? 0 then pixels else <[Z.to_nat i := clamp8 v]> pixels.

(** [setPixelColor(pixels, x, y, width, color)] *)
Definition setPixelColor (pixels : list Z) (x y width : Z) (color : Color) : list Z :=
  let index := (y * width + x) * 4 in
  let pixels := store pixels index (r color) in
  let pixels := store pixels (index + 1) (g color) in
  let pixels := store pixels (index + 2) (b color) in
  store pixels (index + 3) (a color).

(** [colorsMatch(c1, c2)]: [===] on each channel. *)
Definition colorsMatch (c1 c2 : Color) : bool :=
  bool_decide (r c1 = r c2) && bool_decide (g c1 = g c2) &&
  bool_decide (b c1 = b c2) && bool_decide (a c1 = a c2).

(** The class [[a-f\d]] under the [i] flag. *)
Definition is_hex_digit (c : ascii) : bool :=
  let n := Z.of_nat (nat_of_ascii c) in
  ((48 <=? n) && (n <=? 57)) || ((97 <=? n) && (n <=? 102)) ||
  ((65 <=? n) && (n <=? 70)).

Definition digit_value (c : ascii) : Z :=
  let n := Z.of_nat (nat_of_ascii c) in
  if (48 <=? n) && (n <=? 57) then n - 48
  else if (97 <=? n) && (n <=? 102) then n - 87
  else n - 55.

(** [parseInt(s, 16)] on a string of hexadecimal digits. *)
Definition parseInt16 (s : string) : Z :=
  fold_left (fun acc c => acc * 16 + digit_value c) (list_ascii_of_string s) 0.

(** The three groups [([a-f\d]{2})] followed by the end of the input. *)
Definition match_groups (s : string) : option (string * string * string) :=
  match s with
  | String c1 (String c2 (String c3 (String c4 (String c5 (String c6 EmptyString))))) =>
      if forallb is_hex_digit [c1; c2; c3; c4; c5; c6]
      then Some (String c1 (String c2 EmptyString),
                 String c3 (String c4 EmptyString),
                 String c5 (String c6 EmptyString))
      else None
  | _ => None
  end.

(** [/^#?([a-f\d]{2})([a-f\d]{2})([a-f\d]{2})$/i.exec(hex)]: the greedy
    [#?] first consumes a leading [#] and, when the rest fails, is retried
    matching nothing. *)
Definition regex_exec (hex : string) : option (string * string * string) :=
  match hex with
  | String c rest =>
      if Ascii.eqb c "#" then
        match match_groups rest with
        | Some gs => Some gs
        | None => match_groups hex
        end
      else match_groups hex
  | EmptyString => match_groups hex
  end.

Definition black : Color := mkColor (Some 0) (Some 0) (Some 0) (Some 255).

(** [hexToRgb(hex)] *)
Definition hexToRgb (hex : string) : Color :=
  match regex_exec hex with
  | Some (g1, g2, g3) =>
      mkColor (Some (parseInt16 g1)) (Some (parseInt16 g2))
              (Some (parseInt16 g3)) (Some 255)
  | None => black
  end.

(** A colour in the sense of the data model: four 8-bit channels. *)
Definition channel_ok (v : option Z) : Prop :=
  match v with
  | Some z => 0 <= z <= 255
  | None => False
  end.

Definition valid_color (c : Color) : Prop :=
  channel_ok (r c) /\ channel_ok (g c) /\ channel_ok (b c) /\ channel_ok (a c).

(** The input format in the words of the specification: six hexadecimal
    digits, written [#rrggbb], the [#] being optional as in the pattern. *)
Definition six_hex_digits (s : string) : bool :=
  (Nat.eqb (String.length s) 6) && forallb is_hex_digit (list_ascii_of_string s).

Definition strict_hex6 (s : string) : bool :=
  match s with
  | String c rest => if Ascii.eqb c "#" then six_hex_digits rest else six_hex_digits s
  | EmptyString => false
  end.

End Colors.

(** ** Flood fill *)

Module Fill.
Import Colors.

Abbreviation Point := (Z * Z)%type.

(** The local state of the [while] loop. [written] is not a variable of
    the program: it logs the coordinates of the [setPixelColor] calls, most
    recent first. The stack holds its top at the head of the list. The keys
    [`${x},${y}`] of the [visited] set are kept as the pairs they encode. *)
Record LoopState : Type := mkLoop {
  pixels : list Z;
  stack : list Point;
  visited : gset Point;
  written : list Point
}.

(** The body of the loop after [stack.pop()] returned [(x, y)] and left
    [rest], for a buffer of [W] by [H] pixels. *)
Definition visit (W H : Z) (targetColor fillColor : Color)
    (st : LoopState) (p : Point) (rest : list Point) : LoopState :=
  let '(x, y) := p in
  if decide ((x, y) ∈ visited st) then
    mkLoop (pixels st) rest (visited st) (written st)
  else if (x <? 0) || (x >=? W) || (y <? 0) || (y >=? H) then
    mkLoop (pixels st) rest (visited st) (written st)
  else
    let currentColor := getPixelColor (pixels st) x y W in
    if negb (colorsMatch currentColor targetColor) then
      mkLoop (pixels st) rest (visited st) (written st)
    else
      mkLoop (setPixelColor (pixels st) x y W fillColor)
             ((x, y - 1) :: (x, y + 1) :: (x - 1, y) :: (x + 1, y) :: rest)
             ({[ (x, y) ]} ∪ visited st)
             ((x, y) :: written st).

(** The canvas element with the pixels of its bitmap, and the component
    state the fill touches. *)
Record Canvas : Type := mkCanvas {
  cwidth : Z;
  cheight : Z;
  cdata : list Z
}.

Record DrawingState : Type := mkDrawingState {
  imageData : list Z;
  timestamp : Z
}.

Record Component : Type := mkComponent {
  canvas : Canvas;
  hist : History.HistoryState DrawingState
}.

(** [ctx.getImageData(0, 0, canvas.width, canvas.height)] *)
Definition getImageData (cv : Canvas) : Completion (list Z) :=
  if (cwidth cv =? 0) || (cheight cv =? 0) then Throw IndexSizeError
  else Normal (cdata cv).

(** [ctx.putImageData(imageData, 0, 0)] *)
Definition putImageData (cv : Canvas) (px : list Z) : Canvas :=
  mkCanvas (cwidth cv) (cheight cv) px.

(** [saveToHistory()] of the component; [now] is [Date.now()]. *)
Definition saveToHistory (MAX now : Z) (c : Component) : Completion Component :=
  match getImageData (canvas c) with
  | Throw e => Throw e
  | Normal px =>
      Normal (mkComponent (canvas c)
                (History.saveToHistory MAX (hist c) (mkDrawingState px now)))
  end.

(** What a call of [floodFill] leaves: the component, and the log of the
    pixel writes of the call. *)
Definition FillResult : Type := Component * list Point.

(** *** First variant: no iteration counter, 50 history steps *)
Module V1.

(** [while (stack.length > 0) { ... }]; [None] when [fuel] iterations do
    not empty the stack. *)
Fixpoint loop (W H : Z) (targetColor fillColor : Color)
    (fuel : nat) (st : LoopState) : option LoopState :=
  match stack st with
  | [] => Some st
  | p :: rest =>
      match fuel with
      | O => None
      | S fuel' =>
          loop W H targetColor fillColor fuel'
               (visit W H targetColor fillColor st p rest)
      end
  end.

(** [floodFill(startX, startY)] with [fillColor] for [hexToRgb(color)]. *)
Definition floodFillWith (fuel : nat) (now : Z) (fillColor : Color)
    (c : Component) (startX startY : Z) : option (Completion FillResult) :=
  match getImageData (canvas c) with
  | Throw e => Some (Throw e)
  | Normal px =>
      let W := cwidth (canvas c) in
      let H := cheight (canvas c) in
      let targetColor := getPixelColor px startX startY W in
      if colorsMatch targetColor fillColor then Some (Normal (c, []))
      else
        match loop W H targetColor fillColor fuel
                   (mkLoop px [(startX, startY)] ∅ []) with
        | None => None
        | Some st =>
            let c' := mkComponent (putImageData (canvas c) (pixels st)) (hist c) in
            match saveToHistory 50 now c' with
            | Throw e => Some (Throw e)
            | Normal c'' => Some (Normal (c'', written st))
            end
        end
  end.

Definition floodFill (fuel : nat) (now : Z) (color : string)
    (c : Component) (startX startY : Z) : option (Completion FillResult) :=
  floodFillWith fuel now (hexToRgb color) c startX startY.

End V1.

(** *** Second variant: [maxIterations], device pixel ratio, 30 steps *)
Module V2.

(** [window.devicePixelRatio] is a number that need not be an integer
    (1.25 and 1.5 are common), and so are [width * dpr], [height * dpr],
    [maxIterations] and the [index] of a pixel. A finite double is a
    rational number: the model keeps the rational and takes sums and
    products exactly, as double arithmetic does while the exact result is
    representable. The props [width] and [height] and the coordinates are
    integers. *)

(** The integer that a number is, if it is one. *)
Definition whole (n : Qc) : option Z :=
  if bool_decide (Qden n = 1%positive) then Some (Qnum n) else None.

(** [pixels[index]]: a typed array has elements at integer indices only,
    a read at any other index gives [undefined]. *)
Definition element (pixels : list Z) (index : Qc) : option Z :=
  match whole index with
  | Some i => at_index pixels i
  | None => None
  end.

(** [pixels[index] = v]: a store at an index that is not an integer is
    dropped, like a store outside the array. *)
Definition assign (pixels : list Z) (index : Qc) (v : option Z) : list Z :=
  match whole index with
  | Some i => store pixels i v
  | None => pixels
  end.

(** [getPixelColor(pixels, x, y, width)], called with [width * dpr]. *)
Definition getPixelColor (pixels : list Z) (x y : Z) (width : Qc) : Color :=
  let index := ((Qc_of_Z y * width + Qc_of_Z x) * Qc_of_Z 4)%Qc in
  {| r := element pixels index;
     g := element pixels (index + Qc_of_Z 1)%Qc;
     b := element pixels (index + Qc_of_Z 2)%Qc;
     a := element pixels (index + Qc_of_Z 3)%Qc |}.

(** [setPixelColor(pixels, x, y, width, color)], called with
    [width * dpr]. *)
Definition setPixelColor (pixels : list Z) (x y : Z) (width : Qc)
    (color : Color) : list Z :=
  let index := ((Qc_of_Z y * width + Qc_of_Z x) * Qc_of_Z 4)%Qc in
  let pixels := assign pixels index (r color) in
  let pixels := assign pixels (index + Qc_of_Z 1)%Qc (g color) in
  let pixels := assign pixels (index + Qc_of_Z 2)%Qc (b color) in
  assign pixels (index + Qc_of_Z 3)%Qc (a color).

(** The body of the loop after [iterations++] and [stack.pop()], with
    [W] for [width * dpr] and [H] for [height * dpr]. *)
Definition visit (W H : Qc) (targetColor fillColor : Color)
    (st : LoopState) (p : Point) (rest : list Point) : LoopState :=
  let '(x, y) := p in
  if decide ((x, y) ∈ visited st) then
    mkLoop (pixels st) rest (visited st) (written st)
  else if (x <? 0) || bool_decide (W <= Qc_of_Z x)%Qc ||
          (y <? 0) || bool_decide (H <= Qc_of_Z y)%Qc then
    mkLoop (pixels st) rest (visited st) (written st)
  else
    let currentColor := getPixelColor (pixels st) x y W in
    if negb (colorsMatch currentColor targetColor) then
      mkLoop (pixels st) rest (visited st) (written st)
    else
      mkLoop (setPixelColor (pixels st) x y W fillColor)
             ((x, y - 1) :: (x, y + 1) :: (x - 1, y) :: (x + 1, y) :: rest)
             ({[ (x, y) ]} ∪ visited st)
             ((x, y) :: written st).

(** The local state with the [iterations] counter. *)
Record CountedState : Type := mkCounted {
  loop_state : LoopState;
  iterations : Z
}.

(** [while (stack.length > 0 && iterations < maxIterations)
       { iterations++; ... }] *)
Fixpoint loop (W H : Qc) (targetColor fillColor : Color) (maxIterations : Qc)
    (fuel : nat) (st : CountedState) : option CountedState :=
  match stack (loop_state st) with
  | [] => Some st
  | p :: rest =>
      if bool_decide (Qc_of_Z (iterations st) < maxIterations)%Qc then
        match fuel with
        | O => None
        | S fuel' =>
            loop W H targetColor fillColor maxIterations fuel'
                 (mkCounted (visit W H targetColor fillColor (loop_state st) p rest)
                            (iterations st + 1))
        end
      else Some st
  end.

(** [floodFill(startX, startY)]; [startX] and [startY] stand for
    [Math.floor(startX)] and [Math.floor(startY)]. [width] and [height]
    are the props; the bitmap of the canvas is the one the component was
    mounted with. *)
Definition floodFillWith (width height : Z) (devicePixelRatio : Qc)
    (fuel : nat) (now : Z) (fillColor : Color) (c : Component)
    (startX startY : Z) : option (Completion FillResult) :=
  let dpr := if bool_decide (devicePixelRatio = 0%Qc) then 1%Qc
             else devicePixelRatio in
  match getImageData (canvas c) with
  | Throw e => Some (Throw e)
  | Normal px =>
      let W := (Qc_of_Z width * dpr)%Qc in
      let H := (Qc_of_Z height * dpr)%Qc in
      let targetColor := getPixelColor px startX startY W in
      if colorsMatch targetColor fillColor then Some (Normal (c, []))
      else
        let maxIterations := (Qc_of_Z width * Qc_of_Z height * dpr * dpr)%Qc in
        match loop W H targetColor fillColor maxIterations fuel
                   (mkCounted (mkLoop px [(startX, startY)] ∅ []) 0) with
        | None => None
        | Some st =>
            let c' := mkComponent
                        (putImageData (canvas c) (pixels (loop_state st)))
                        (hist c) in
            match saveToHistory 30 now c' with
            | Throw e => Some (Throw e)
            | Normal c'' => Some (Normal (c'', written (loop_state st)))
            end
        end
  end.

End V2.

(** *** The second variant at a whole device pixel ratio

    When [dpr] is an integer every number of the fill is one, the row
    width of [getPixelColor] is the width of the bitmap, and the fill is
    the first variant's with a counter. The two definitions below say so
    with integers throughout. They are not read off the source: they are
    what [V2.loop] and [V2.floodFillWith] compute at such a ratio
    ([V2_loop_whole], [V2_floodFillWith_whole]), and the facts about whole
    ratios are proved through them. *)
Module WholeRatio.

Fixpoint loop (W H : Z) (targetColor fillColor : Color) (maxIterations : Z)
    (fuel : nat) (st : V2.CountedState) : option V2.CountedState :=
  match stack (V2.loop_state st) with
  | [] => Some st
  | p :: rest =>
      if V2.iterations st <? maxIterations then
        match fuel with
        | O => None
        | S fuel' =>
            loop W H targetColor fillColor maxIterations fuel'
                 (V2.mkCounted
                    (visit W H targetColor fillColor (V2.loop_state st) p rest)
                    (V2.iterations st + 1))
        end
      else Some st
  end.

Definition floodFillWith (width height dpr : Z) (fuel : nat) (now : Z)
    (fillColor : Color) (c : Component) (startX startY : Z)
    : option (Completion FillResult) :=
  match getImageData (canvas c) with
  | Throw e => Some (Throw e)
  | Normal px =>
      let targetColor := Colors.getPixelColor px startX startY (width * dpr) in
      if colorsMatch targetColor fillColor then Some (Normal (c, []))
      else
        let maxIterations := width * height * dpr * dpr in
        match loop (width * dpr) (height * dpr) targetColor fillColor
                   maxIterations fuel
                   (V2.mkCounted (mkLoop px [(startX, startY)] ∅ []) 0) with
        | None => None
        | Some st =>
            let c' := mkComponent
                        (putImageData (canvas c) (pixels (V2.loop_state st)))
                        (hist c) in
            match saveToHistory 30 now c' with
            | Throw e => Some (Throw e)
            | Normal c'' => Some (Normal (c'', written (V2.loop_state st)))
            end
        end
  end.

End WholeRatio.

(** *** The region a fill is meant to cover *)

Definition in_bounds (W H : Z) (p : Point) : Prop :=
  0 <= fst p < W /\ 0 <= snd p < H.

(** The four axis neighbours. *)
Definition adjacent (p q : Point) : Prop :=
  (fst q = fst p + 1 /\ snd q = snd p) \/
  (fst q = fst p - 1 /\ snd q = snd p) \/
  (fst q = fst p /\ snd q = snd p + 1) \/
  (fst q = fst p /\ snd q = snd p - 1).

Definition color_at (W : Z) (px : list Z) (p : Point) : Color :=
  getPixelColor px (fst p) (snd p) W.

(** [region W H px seed p]: [p] is reached from [seed] by a 4-connected
    path of in-bounds pixels that all have the colour of [seed] in [px]. *)
Inductive region (W H : Z) (px : list Z) (seed : Point) : Point -> Prop :=
| region_seed :
    in_bounds W H seed -> region W H px seed seed
| region_step p q :
    region W H px seed p ->
    adjacent p q ->
    in_bounds W H q ->
    color_at W px q = color_at W px seed ->
    region W H px seed q.

End Fill.

(** ** Invariants and the termination measure of the fill loop *)

Module FillSpec.
Import Colors Fill.

(** Every coordinate of a [W] by [H] buffer. *)
Definition coords (W H : Z) : list Point :=
  seqZ 0 W ≫= λ x, (λ y, (x, y)) <$> seqZ 0 H.

(** The coordinates of the buffer that are not in the visited set. *)
Definition unvisited (W H : Z) (V : gset Point) : nat :=
  length (filter (λ p, p ∉ V) (coords W H)).

(** An iteration that writes takes one coordinate out of [unvisited] and
    grows the stack by three; any other iteration shrinks the stack. *)
Definition measure (W H : Z) (st : LoopState) : nat :=
  (4 * unvisited W H (visited st) + length (stack st))%nat.

(** The log of writes against the visited set. *)
Record write_inv (W H : Z) (st : LoopState) : Prop := mkWriteInv {
  wi_nodup : NoDup (written st);
  wi_visited : forall p, p ∈ written st <-> p ∈ visited st;
  wi_bounds : forall p, p ∈ visited st -> in_bounds W H p
}.

(** The loop invariant of a fill of buffer [B0] from [seed]. *)
Record fill_inv (W H : Z) (B0 : list Z) (seed : Point) (fillColor : Color)
    (st : LoopState) : Prop := mkFillInv {
  fi_length : length (pixels st) = length B0;
  fi_region : forall p, p ∈ visited st -> region W H B0 seed p;
  fi_filled : forall p, p ∈ visited st -> color_at W (pixels st) p = fillColor;
  fi_kept : forall p, in_bounds W H p -> p ∉ visited st ->
              color_at W (pixels st) p = color_at W B0 p;
  fi_stack : forall q, q ∈ stack st ->
               q = seed \/ exists p, p ∈ visited st /\ adjacent p q;
  fi_closed : forall p q, p ∈ visited st -> adjacent p q ->
                in_bounds W H q -> color_at W B0 q = color_at W B0 seed ->
                q ∈ visited st \/ q ∈ stack st;
  fi_seed : seed ∈ visited st \/ seed ∈ stack st
}.

End FillSpec.

(** ** The claims of the specification that the code does not meet,
       as they are written *)

Module AsStated.
Import History.

(** Push with eviction as the specification words it: the cursor is left
    one short of the tail and does not reference the pushed snapshot. *)
Definition push_cursor_policy {A : Type} (MAX : Z)
    (st : HistoryState A) (snap : A) : Prop :=
  let newHistory := slice0 (history st) (historyStep st + 1) ++ [snap] in
  let st' := saveToHistory MAX st snap in
  (Z.of_nat (length newHistory) > MAX ->
     history st' = drop 1 newHistory /\
     historyStep st' = historyStep st /\
     historyStep st' = (len st' - 1) - 1 /\
     current st' <> Some snap) /\
  (Z.of_nat (length newHistory) <= MAX ->
     historyStep st' = historyStep st + 1 /\
     current st' = Some snap).

(** Malformed input never yields the black default. *)
Definition no_silent_black (s : string) : Prop :=
  Colors.strict_hex6 s = false -> Colors.hexToRgb s <> Colors.black.

(** A fill seeded outside the buffer ends in an error. *)
Definition out_of_bounds_fails (fuel : nat) (now : Z) (fillColor : Colors.Color)
    (c : Fill.Component) (seedX seedY : Z) : Prop :=
  ~ Fill.in_bounds (Fill.cwidth (Fill.canvas c)) (Fill.cheight (Fill.canvas c))
      (seedX, seedY) ->
  exists e, Fill.V1.floodFillWith fuel now fillColor c seedX seedY = Some (Throw e).


End AsStated.

(** ** Concrete buffers *)

Module Samples.
Import Colors Fill.

Definition white : Color := mkColor (Some 255) (Some 255) (Some 255) (Some 255).

(** [n] white pixels. *)
Definition white_pixels (n : nat) : list Z :=
  concat (replicate n [255; 255; 255; 255]).

Definition blank (W H : Z) : Component :=
  mkComponent (mkCanvas W H (white_pixels (Z.to_nat (W * H)))) History.initial.

(** The loop state at the start of a fill of the 1 by 1 white buffer. *)
Definition start1x1 : LoopState := mkLoop (white_pixels 1) [(0, 0)] ∅ [].

(** A full history of the first variant (50 entries, numbered from 0)
    with the cursor on its last entry. *)
Definition full50 : History.HistoryState Z := History.mkHistory (seqZ 0 50) 49.

End Samples.

(** ** Recent colours *)

Module Recent.

(** The updater that [addToRecentColors(newColor)] passes to
    [setRecentColors]: [prev[0]] is [undefined] on the empty list. *)
Definition addToRecentColors (newColor : string) (prev : list string) : list string :=
  if bool_decide (head prev = Some newColor) then prev
  else
    let filtered := filter (λ c, c ≠ newColor) prev in
    take 8 (newColor :: filtered).

(** The two pieces of state [handleColorChange] sets. *)
Record Palette : Type := mkPalette {
  color : string;
  recentColors : list string
}.

(** [handleColorChange(newColor)] *)
Definition handleColorChange (newColor : string) (pal : Palette) : Palette :=
  mkPalette newColor (addToRecentColors newColor (recentColors pal)).

(** The colours picked one after the other, oldest first, starting from
    [useState([])]. *)
Definition picked (cs : list string) : list string :=
  fold_left (λ prev c, addToRecentColors c prev) cs [].

End Recent.

(** ** The component around the fill: undo, redo, clear *)

Module Surface.
Import Colors Fill.

(** [undo] of the component: the image of the previous entry is put on
    the canvas and the cursor moves back. *)
Definition undo (c : Component) : Completion Component :=
  match History.undo (hist c) with
  | Throw e => Throw e
  | Normal None => Normal c
  | Normal (Some (h, e)) =>
      Normal (mkComponent (putImageData (canvas c) (imageData e)) h)
  end.

(** [redo] of the component. *)
Definition redo (c : Component) : Completion Component :=
  match History.redo (hist c) with
  | Throw e => Throw e
  | Normal None => Normal c
  | Normal (Some (h, e)) =>
      Normal (mkComponent (putImageData (canvas c) (imageData e)) h)
  end.

(** [ctx.clearRect(0, 0, canvas.width, canvas.height)] on the untransformed
    context of the first variant: every byte becomes 0. *)
Definition clearRect (cv : Canvas) : Canvas :=
  mkCanvas (cwidth cv) (cheight cv) (replicate (length (cdata cv)) 0).

(** [clearCanvas] of the first variant. *)
Definition clearCanvas (now : Z) (c : Component) : Completion Component :=
  saveToHistory 50 now (mkComponent (clearRect (canvas c)) (hist c)).

(** The canvas shows the entry under the cursor: the cursor is inside the
    history, the entry it references holds the bytes of the canvas, and
    every entry is an image of the size of the canvas. *)
Definition synced (c : Component) : Prop :=
  cwidth (canvas c) <> 0 /\ cheight (canvas c) <> 0 /\
  0 <= History.historyStep (hist c) < History.len (hist c) /\
  History.len (hist c) <= 50 /\
  (exists e, History.current (hist c) = Some e /\
             imageData e = cdata (canvas c)) /\
  Forall (λ e, length (imageData e) = length (cdata (canvas c)))
         (History.history (hist c)).

End Surface.

(** ** The keyboard shortcuts and the history they see *)

Module Shortcuts.
Section Generic.
Import History.
Context {A : Type}.
Variable MAX : Z.

(** The [keydown] handler is registered by an effect whose dependency list
    is [[historyStep]]. The handler calls the [undo] and [redo] of the
    render in which the effect last ran, and these read the [history] and
    [historyStep] of that render. The effect runs again after every
    render in which [historyStep] changed, so the handler always has the
    current [historyStep], while its [history] is the one of the last
    such render: [captured]. The buttons call the current [undo] and
    [redo]. *)
Record Listening : Type := mkListening {
  state : HistoryState A;
  captured : list A
}.

(** The first render: empty history, and the handler registered in it. *)
Definition mounted : Listening := mkListening initial [].

(** A render with the new state [st']: the effect runs again only when
    [historyStep] differs from the one of the render before. *)
Definition rendered (before : Listening) (st' : HistoryState A) : Listening :=
  mkListening st'
    (if bool_decide (historyStep st' = historyStep (state before))
     then captured before else history st').

Definition push (l : Listening) (snap : A) : Listening :=
  rendered l (saveToHistory MAX (state l) snap).

Definition push_each (snaps : list A) (l : Listening) : Listening :=
  fold_left push snaps l.

(** The Undo button. *)
Definition click_undo (l : Listening) : Completion (option (Listening * A)) :=
  match undo (state l) with
  | Throw e => Throw e
  | Normal None => Normal None
  | Normal (Some (st', e)) => Normal (Some (rendered l st', e))
  end.

(** Ctrl+Z: the handler's [undo] reads the captured history and sets
    [historyStep] only. *)
Definition key_undo (l : Listening) : Completion (option (Listening * A)) :=
  match undo (mkHistory (captured l) (historyStep (state l))) with
  | Throw e => Throw e
  | Normal None => Normal None
  | Normal (Some (st', e)) =>
      Normal (Some (rendered l (mkHistory (history (state l)) (historyStep st')), e))
  end.

End Generic.
End Shortcuts.

Arguments Shortcuts.Listening : clear implicits.

(** ** Letter case of hexadecimal colours *)

Module HexCase.

(** The lower-case form of an ASCII letter; other characters are kept. *)
Definition lower (c : ascii) : ascii :=
  let n := nat_of_ascii c in
  if (Nat.leb 65 n && Nat.leb n 90)%bool then ascii_of_nat (n + 32) else c.

Fixpoint lower_string (s : string) : string :=
  match s with
  | EmptyString => EmptyString
  | String c rest => String (lower c) (lower_string rest)
  end.

End HexCase.

(** ** Concrete components and palettes *)

Module MoreSamples.
Import Colors Fill.

(** The component right after mounting a 1 by 1 canvas: a transparent
    pixel and its snapshot as the only history entry. *)
Definition fresh1x1 : Component :=
  mkComponent (mkCanvas 1 1 [0; 0; 0; 0])
    (History.mkHistory [mkDrawingState [0; 0; 0; 0] 0] 0).

(** A 5 by 1 canvas with one blue pixel in front of four white ones. *)
Definition blue_then_white : Component :=
  mkComponent (mkCanvas 5 1 ([0; 0; 255; 255] ++ Samples.white_pixels 4))
    History.initial.

(** The ratio 1.5. *)
Definition one_and_a_half : Qc := Q2Qc (3 # 2).

Definition eight_colours : list string :=
  ["#000001"; "#000002"; "#000003"; "#000004";
   "#000005"; "#000006"; "#000007"; "#000008"]%string.

End MoreSamples.

(** Closed arithmetic facts, by evaluation. *)
Ltac by_eval :=
  vm_compute; repeat split; first [reflexivity | discriminate | intro; discriminate].

(** * Properties of the history *)

Section HistoryFacts.
Import History.
Context {A : Type}.
Variable MAX : Z.
Implicit Types (st : HistoryState A) (snap : A).

Lemma slice0_prefix (arr : list A) (e : Z) :
  0 <= e <= Z.of_nat (length arr) ->
  slice0 arr e = take (Z.to_nat e) arr /\
  Z.of_nat (length (slice0 arr e)) = e.
Proof.
  intros He. unfold slice0.
  destruct (e <? 0) eqn:Hneg; [lia|].
  rewrite Z.min_l by lia. split; [done|].
  rewrite length_take. lia.
Qed.

Lemma at_index_app_last (arr : list A) (x : A) (i : Z) :
  Z.of_nat (length arr) = i -> at_index (arr ++ [x]) i = Some x.
Proof.
  intros <-. unfold at_index.
  destruct (Z.of_nat (length arr) <? 0) eqn:E; [lia|].
  rewrite Nat2Z.id. rewrite lookup_app_r by lia.
  by rewrite Nat.sub_diag.
Qed.

Lemma at_index_drop1 (arr : list A) (i : Z) :
  0 <= i -> at_index (drop 1 arr) i = at_index arr (i + 1).
Proof.
  intros Hi. unfold at_index.
  destruct (i <? 0) eqn:E1; [lia|]. destruct (i + 1 <? 0) eqn:E2; [lia|].
  rewrite lookup_drop. f_equal. lia.
Qed.

(** After any push on a state whose cursor lies within the sequence, the
    cursor is the last index and references the pushed snapshot. *)
Lemma saveToHistory_tail st snap :
  1 <= MAX ->
  -1 <= historyStep st < len st ->
  let st' := saveToHistory MAX st snap in
  historyStep st' = len st' - 1 /\ current st' = Some snap.
Proof.
  intros HM Hc. unfold len in Hc.
  destruct (slice0_prefix (history st) (historyStep st + 1)) as [Hs Hl]; [lia|].
  unfold saveToHistory, current, len.
  rewrite length_app, Nat2Z.inj_add, Hl. simpl length.
  destruct (historyStep st + 1 + Z.of_nat 1 >? MAX) eqn:Hev; simpl.
  - rewrite length_drop, length_app. simpl length.
    split; [lia|].
    rewrite at_index_drop1 by lia.
    by apply at_index_app_last.
  - rewrite length_app. simpl length. split; [lia|].
    by apply at_index_app_last.
Qed.

Lemma saveToHistory_inv st snap :
  0 <= MAX -> hist_inv MAX st -> hist_inv MAX (saveToHistory MAX st snap).
Proof.
  intros HM [Hlen Hc]. unfold hist_inv, len in *.
  assert (Hr : -1 <= historyStep st < Z.of_nat (length (history st))).
  { destruct Hc as [[-> ->]|?]; simpl; lia. }
  destruct (slice0_prefix (history st) (historyStep st + 1)) as [Hs Hl]; [lia|].
  unfold saveToHistory.
  rewrite length_app, Nat2Z.inj_add, Hl. simpl length.
  destruct (historyStep st + 1 + Z.of_nat 1 >? MAX) eqn:Hev; simpl.
  - rewrite length_drop, length_app. simpl length. split; [lia|].
    destruct (decide (historyStep st = -1)) as [Heq|Hne].
    + left. split; [|done].
      destruct (slice0 (history st) (historyStep st + 1)) as [|x l]; [done|].
      simpl in Hl. lia.
    + right. lia.
  - rewrite length_app. simpl length. split; [lia|]. right. lia.
Qed.

Lemma undo_inv st : hist_inv MAX st -> hist_inv MAX (state_after (undo st) st).
Proof.
  intros Hi. unfold undo.
  destruct (historyStep st >? 0) eqn:Hg; [|done].
  destruct (at_index (history st) (historyStep st - 1)); [|done].
  simpl. destruct Hi as [Hlen Hc]. unfold hist_inv, len in *. simpl.
  split; [done|]. right. destruct Hc as [[_ Hc]|Hc]; lia.
Qed.

Lemma redo_inv st : hist_inv MAX st -> hist_inv MAX (state_after (redo st) st).
Proof.
  intros Hi. unfold redo.
  destruct (historyStep st <? len st - 1) eqn:Hg; [|done].
  destruct (at_index (history st) (historyStep st + 1)); [|done].
  simpl. destruct Hi as [Hlen Hc]. unfold hist_inv, len in *. simpl.
  split; [done|]. right. destruct Hc as [[_ Hc]|Hc]; lia.
Qed.

Lemma apply_op_inv st o :
  0 <= MAX -> hist_inv MAX st -> hist_inv MAX (apply_op MAX st o).
Proof.
  intros HM Hi. destruct o; simpl;
    auto using saveToHistory_inv, undo_inv, redo_inv.
Qed.

Lemma run_inv ops st :
  0 <= MAX -> hist_inv MAX st -> hist_inv MAX (run MAX ops st).
Proof.
  intros HM. revert st. induction ops as [|o ops IH]; intros st Hi; simpl.
  - done.
  - apply IH. by apply apply_op_inv.
Qed.

Lemma initial_inv : 0 <= MAX -> hist_inv MAX (@initial A).
Proof. intros HM. unfold hist_inv, len. simpl. split; [lia|]. by left. Qed.

(** Pushes only: the cursor stays at the tail and the length grows by one
    until it meets [MAX]. *)
Lemma push_all_length snaps st :
  0 <= MAX ->
  len st <= MAX ->
  historyStep st = len st - 1 ->
  let st' := push_all MAX snaps st in
  len st' = Z.min (len st + Z.of_nat (length snaps)) MAX /\
  historyStep st' = len st' - 1.
Proof.
  intros HM. revert st.
  induction snaps as [|s snaps IH]; intros st Hle Hc; simpl.
  - split; [lia|done].
  - assert (Hone : len (saveToHistory MAX st s) = Z.min (len st + 1) MAX /\
                   historyStep (saveToHistory MAX st s)
                   = len (saveToHistory MAX st s) - 1).
    { unfold len in *.
      destruct (slice0_prefix (history st) (historyStep st + 1)) as [Hs Hl]; [lia|].
      unfold saveToHistory.
      rewrite length_app, Nat2Z.inj_add, Hl. simpl length.
      destruct (historyStep st + 1 + Z.of_nat 1 >? MAX) eqn:Hev; simpl.
      - rewrite length_drop, length_app. simpl length. lia.
      - rewrite length_app. simpl length. lia. }
    destruct Hone as [H1 H2].
    destruct (IH (saveToHistory MAX st s)) as [H3 H4]; [lia|done|].
    fold (push_all MAX snaps (saveToHistory MAX st s)).
    split; [|done]. rewrite H3, H1. lia.
Qed.

(** C3 (as amended): a push that makes the sequence exceed [MAX] evicts
    index 0 and leaves the number held by the cursor unchanged; a push
    that does not, advances the cursor by one. Starting from a cursor
    within the sequence, in both cases the cursor ends at the last index
    and references the snapshot just pushed. *)
Theorem C3_push_cursor_references_pushed st snap :
  1 <= MAX ->
  -1 <= historyStep st < len st ->
  let newHistory := slice0 (history st) (historyStep st + 1) ++ [snap] in
  let st' := saveToHistory MAX st snap in
  (Z.of_nat (length newHistory) > MAX ->
     history st' = drop 1 newHistory /\ historyStep st' = historyStep st) /\
  (Z.of_nat (length newHistory) <= MAX ->
     history st' = newHistory /\ historyStep st' = historyStep st + 1) /\
  historyStep st' = len st' - 1 /\
  current st' = Some snap.
Proof.
  intros HM Hc newHistory st'.
  destruct (saveToHistory_tail st snap HM Hc) as (Ht & Hcur).
  split; [|split; [|by split]].
  - intros Hev. subst st'. unfold saveToHistory. fold newHistory.
    destruct (Z.of_nat (length newHistory) >? MAX) eqn:E; [done|lia].
  - intros Hev. subst st'. unfold saveToHistory. fold newHistory.
    destruct (Z.of_nat (length newHistory) >? MAX) eqn:E; [lia|done].
Qed.

(** C4: from the empty history the length never exceeds [MAX], whatever
    the operations; and along a sequence of more than [MAX] pushes the
    length after the first [k] pushes is at most [MAX], and is exactly
    [MAX] from the push that first reaches it onwards. *)
Theorem C4_history_length_bounded :
  0 <= MAX ->
  (forall ops : list (Op A), len (run MAX ops initial) <= MAX) /\
  (forall snaps : list A,
     MAX < Z.of_nat (length snaps) ->
     forall k : nat, (k <= length snaps)%nat ->
       let st := push_all MAX (take k snaps) initial in
       len st <= MAX /\ (MAX <= Z.of_nat k -> len st = MAX)).
Proof.
  intros HM. split.
  - intros ops. apply (run_inv ops initial HM (initial_inv HM)).
  - intros snaps HN k Hk st.
    destruct (push_all_length (take k snaps) initial HM) as [Hl _].
    { unfold len. simpl. lia. }
    { done. }
    fold st in Hl. rewrite length_take in Hl.
    unfold len in Hl at 2. simpl in Hl. lia.
Qed.

(** C6: in a state reached from the empty history in which a redo is
    possible, a push keeps the entries up to the cursor, drops the ones
    after it, appends the snapshot, and leaves nothing to redo. *)
Theorem C6_push_discards_redo_branch (ops : list (Op A)) snap :
  0 <= MAX ->
  let st := run MAX ops initial in
  canRedo st = true ->
  let st' := saveToHistory MAX st snap in
  history st' = take (Z.to_nat (historyStep st + 1)) (history st) ++ [snap] /\
  canRedo st' = false /\
  current st' = Some snap.
Proof.
  intros HM st Hredo st'.
  destruct (run_inv ops initial HM (initial_inv HM)) as [Hlen Hc].
  fold st in Hlen, Hc.
  unfold canRedo in Hredo. apply negb_true_iff in Hredo.
  assert (Hr : 0 <= historyStep st < len st - 1).
  { destruct Hc as [[Hn Hs]|Hc]; [|lia].
    unfold len in Hredo. rewrite Hn, Hs in Hredo. simpl in Hredo. lia. }
  unfold len in *.
  destruct (slice0_prefix (history st) (historyStep st + 1)) as [Hs Hl]; [lia|].
  subst st'. unfold saveToHistory, canRedo, current, len.
  rewrite length_app, Nat2Z.inj_add, Hl. simpl length.
  destruct (historyStep st + 1 + Z.of_nat 1 >? MAX) eqn:Hev; [lia|]. simpl.
  split; [by rewrite Hs|]. split.
  - rewrite length_app, Nat2Z.inj_add, Hl. simpl length.
    apply negb_false_iff. lia.
  - by apply at_index_app_last.
Qed.

(** C7: in a state reached from the empty history with the cursor above
    0, [undo] succeeds, the [redo] that follows succeeds too, gives back
    the very state before the undo (so the same cursor), and restores the
    entry the cursor referenced before the undo. *)
Theorem C7_undo_then_redo (ops : list (Op A)) :
  0 <= MAX ->
  let st := run MAX ops initial in
  historyStep st > 0 ->
  exists st1 e1 e2,
    undo st = Normal (Some (st1, e1)) /\
    historyStep st1 = historyStep st - 1 /\
    redo st1 = Normal (Some (st, e2)) /\
    current st = Some e2.
Proof.
  intros HM st Hpos.
  destruct (run_inv ops initial HM (initial_inv HM)) as [Hlen Hc].
  fold st in Hlen, Hc.
  assert (Hr : 0 < historyStep st < len st) by (destruct Hc; lia).
  unfold len in Hr.
  destruct (lookup_lt_is_Some_2 (history st) (Z.to_nat (historyStep st - 1)))
    as [e1 He1]; [lia|].
  destruct (lookup_lt_is_Some_2 (history st) (Z.to_nat (historyStep st)))
    as [e2 He2]; [lia|].
  exists (mkHistory (history st) (historyStep st - 1)), e1, e2.
  unfold undo, redo, current, at_index, len. simpl.
  destruct (historyStep st >? 0) eqn:E1; [|lia].
  destruct (historyStep st - 1 <? 0) eqn:E2; [lia|].
  destruct (historyStep st - 1 <? Z.of_nat (length (history st)) - 1) eqn:E3; [|lia].
  destruct (historyStep st - 1 + 1 <? 0) eqn:E4; [lia|].
  destruct (historyStep st <? 0) eqn:E5; [lia|].
  replace (historyStep st - 1 + 1) with (historyStep st) by lia.
  rewrite He1, He2. destruct st; simpl. done.
Qed.

End HistoryFacts.

(** *** The history on concrete inputs *)

Section HistoryExamples.
Import History Samples.

(** The scenario of the specification, capacity 3: pushing A, B, C, D
    leaves [B, C, D] with the cursor on D; two undos and a push of E leave
    [B, E] with nothing to redo. *)
Example scenario_capacity_3 :
  let st := run 3 [Push "A"; Push "B"; Push "C"; Push "D"]%string initial in
  history st = ["B"; "C"; "D"]%string /\ current st = Some "D"%string /\
  let st' := run 3 [Undo; Undo; Push "E"%string] st in
  history st' = ["B"; "E"]%string /\ canRedo st' = false.
Proof. vm_compute. done. Qed.

(** The full history is the one fifty pushes build. *)
Example full50_reached : push_all 50 (seqZ 0 50) initial = full50.
Proof. vm_compute. reflexivity. Qed.

(** C3, as stated, fails: pushing onto the full history evicts entry 0,
    and the cursor (still 49) is the last index and references the pushed
    snapshot, not one short of the tail. *)
Lemma C3_evicting_push_counterexample :
  ~ AsStated.push_cursor_policy 50 full50 50.
Proof.
  intros [Hev _].
  destruct Hev as (_ & _ & Hshort & _).
  - vm_compute. reflexivity.
  - vm_compute in Hshort. discriminate Hshort.
Qed.

(** The amended C3 on the full history of the first variant. *)
Lemma C3_witness :
  1 <= 50 /\ -1 <= historyStep full50 < len full50 /\
  historyStep (saveToHistory 50 full50 50) = len (saveToHistory 50 full50 50) - 1 /\
  current (saveToHistory 50 full50 50) = Some 50.
Proof.
  split; [lia|]. split; [by_eval|].
  apply (C3_push_cursor_references_pushed 50 full50 50); [lia | by_eval].
Defined.

(** C4 with capacity 3 and five pushes, after the fourth. *)
Lemma C4_witness :
  0 <= 3 /\
  len (push_all 3 (take 4 [10; 20; 30; 40; 50]) initial) = 3.
Proof.
  split; [lia|].
  apply (proj2 (C4_history_length_bounded 3 ltac:(lia)) [10; 20; 30; 40; 50]);
    [by_eval | simpl; lia | lia].
Defined.

(** C6 after three pushes and two undos. *)
Lemma C6_witness :
  let st := run 50 [Push 1; Push 2; Push 3; Undo; Undo] initial in
  canRedo st = true /\
  history (saveToHistory 50 st 4) = [1; 4] /\
  canRedo (saveToHistory 50 st 4) = false /\
  current (saveToHistory 50 st 4) = Some 4.
Proof.
  intros st. split; [reflexivity|].
  apply (C6_push_discards_redo_branch 50 [Push 1; Push 2; Push 3; Undo; Undo] 4);
    [lia | reflexivity].
Defined.

(** C7 after three pushes. *)
Lemma C7_witness :
  historyStep (run 50 [Push 1; Push 2; Push 3] initial) > 0 /\
  exists st1 e1 e2,
    undo (run 50 [Push 1; Push 2; Push 3] initial) = Normal (Some (st1, e1)) /\
    historyStep st1 = historyStep (run 50 [Push 1; Push 2; Push 3] initial) - 1 /\
    redo st1 = Normal (Some (run 50 [Push 1; Push 2; Push 3] initial, e2)) /\
    current (run 50 [Push 1; Push 2; Push 3] initial) = Some e2.
Proof.
  split; [reflexivity|].
  apply (C7_undo_then_redo 50 [Push 1; Push 2; Push 3]); [lia | reflexivity].
Defined.

End HistoryExamples.

(** * Properties of the colour helpers *)

Section ColorFacts.
Import Colors.

Lemma colorsMatch_eq (c1 c2 : Color) : colorsMatch c1 c2 = true <-> c1 = c2.
Proof.
  unfold colorsMatch. rewrite !andb_true_iff, !bool_decide_eq_true.
  split.
  - intros [[[Hr Hg] Hb] Ha]. destruct c1, c2; simpl in *. congruence.
  - intros ->. done.
Qed.

Lemma colorsMatch_neq (c1 c2 : Color) : colorsMatch c1 c2 = false <-> c1 <> c2.
Proof.
  rewrite <- colorsMatch_eq. destruct (colorsMatch c1 c2); split; congruence.
Qed.

Lemma clamp8_ok (v : option Z) : channel_ok v -> Some (clamp8 v) = v.
Proof. destruct v as [z|]; simpl; [|done]. intros Hz. f_equal. lia. Qed.

Lemma match_groups_six (s : string) :
  six_hex_digits s = false -> match_groups s = None.
Proof.
  unfold six_hex_digits.
  destruct s as [|c1 [|c2 [|c3 [|c4 [|c5 [|c6 [|c7 s]]]]]]]; try done.
  simpl. intros ->. done.
Qed.

Lemma match_groups_hash (rest : string) : match_groups (String "#" rest) = None.
Proof.
  destruct rest as [|c2 [|c3 [|c4 [|c5 [|c6 [|c7 s]]]]]]; done.
Qed.

Lemma digit_value_range (c : ascii) :
  is_hex_digit c = true -> 0 <= digit_value c <= 15.
Proof.
  unfold is_hex_digit, digit_value.
  generalize (Z.of_nat (nat_of_ascii c)). intros n.
  destruct (48 <=? n) eqn:E1, (n <=? 57) eqn:E2, (97 <=? n) eqn:E3,
    (n <=? 102) eqn:E4, (65 <=? n) eqn:E5, (n <=? 70) eqn:E6;
    simpl; intros Hd; try discriminate Hd; lia.
Qed.

(** A string the pattern accepts gives a colour with 8-bit channels and
    full opacity. *)
Lemma hexToRgb_valid (s : string) :
  valid_color (hexToRgb s) /\ a (hexToRgb s) = Some 255.
Proof.
  assert (Hg : forall t gs, match_groups t = Some gs ->
            valid_color (mkColor (Some (parseInt16 gs.1.1)) (Some (parseInt16 gs.1.2))
                                 (Some (parseInt16 gs.2)) (Some 255))).
  { intros t gs.
    destruct t as [|c1 [|c2 [|c3 [|c4 [|c5 [|c6 [|c7 t]]]]]]]; try done.
    unfold match_groups.
    destruct (forallb is_hex_digit [c1; c2; c3; c4; c5; c6]) eqn:Hall; [|done].
    intros [= <-]. simpl in Hall. rewrite !andb_true_iff in Hall.
    destruct Hall as (H1 & H2 & H3 & H4 & H5 & H6 & _).
    apply digit_value_range in H1, H2, H3, H4, H5, H6.
    unfold valid_color, parseInt16. simpl. lia. }
  assert (Hb : valid_color black) by (unfold valid_color; simpl; lia).
  unfold hexToRgb.
  destruct (regex_exec s) as [[[g1 g2] g3]|] eqn:Hre; [|done].
  split; [|done].
  unfold regex_exec in Hre.
  destruct s as [|c rest]; [done|].
  destruct (Ascii.eqb c "#").
  - destruct (match_groups rest) eqn:Hm.
    + injection Hre as ->. apply (Hg rest _ Hm).
    + apply (Hg _ _ Hre).
  - apply (Hg _ _ Hre).
Qed.

(** C9 (as amended): for every string that is not six hexadecimal digits
    with an optional leading [#], [hexToRgb] returns opaque black; it has
    no error result. *)
Theorem C9_malformed_hex_gives_black (s : string) :
  strict_hex6 s = false -> hexToRgb s = black.
Proof.
  intros Hs. unfold hexToRgb.
  assert (Hre : regex_exec s = None); [|by rewrite Hre].
  unfold regex_exec, strict_hex6 in *.
  destruct s as [|c rest]; [done|].
  destruct (Ascii.eqb c "#") eqn:Hc.
  - apply Ascii.eqb_eq in Hc. subst c.
    rewrite (match_groups_six rest Hs). apply match_groups_hash.
  - by apply match_groups_six.
Qed.

(** C9, as stated, fails: the malformed input [red] is answered with
    black. *)
Lemma C9_silent_black_counterexample : ~ AsStated.no_silent_black "red".
Proof. intros Hclaim. apply Hclaim; reflexivity. Qed.

(** The amended C9 on a string one digit short. *)
Lemma C9_witness :
  strict_hex6 "#12345" = false /\ hexToRgb "#12345" = black.
Proof.
  split; [reflexivity|].
  apply (C9_malformed_hex_gives_black "#12345"). reflexivity.
Defined.

End ColorFacts.

(** * Properties of the pixel accessors *)

Section PixelFacts.
Import Colors Fill.
Implicit Types (px : list Z) (c : Color) (p q : Point).

Lemma store_length px i v : length (store px i v) = length px.
Proof. unfold store. destruct (i <? 0); [done|]. apply length_insert. Qed.

Lemma at_index_store px i v j :
  at_index (store px i v) j =
  if decide (j = i /\ 0 <= i < Z.of_nat (length px))
  then Some (clamp8 v) else at_index px j.
Proof.
  unfold store, at_index.
  destruct (i <? 0) eqn:Hi.
  { case_decide; [lia|done]. }
  destruct (j <? 0) eqn:Hj.
  { case_decide; [lia|done]. }
  case_decide as Hd.
  - destruct Hd as [-> Hr]. apply list_lookup_insert_eq. lia.
  - destruct (decide (j = i)) as [->|Hne].
    + rewrite list_insert_ge by lia. done.
    + apply list_lookup_insert_ne. lia.
Qed.

Lemma setPixelColor_length px x y W c :
  length (setPixelColor px x y W c) = length px.
Proof. unfold setPixelColor. by rewrite !store_length. Qed.

(** A pixel written with a valid colour reads back as that colour. *)
Lemma getPixelColor_set_same px x y W c :
  0 <= (y * W + x) * 4 ->
  (y * W + x) * 4 + 3 < Z.of_nat (length px) ->
  valid_color c ->
  getPixelColor (setPixelColor px x y W c) x y W = c.
Proof.
  intros Hlo Hhi (Hr & Hg & Hb & Ha).
  unfold getPixelColor, setPixelColor.
  destruct c as [cr cg cb ca]; simpl in *.
  apply clamp8_ok in Hr, Hg, Hb, Ha.
  f_equal; rewrite !at_index_store, !store_length;
    repeat case_decide; try lia; done.
Qed.

(** A write leaves the four bytes of every pixel at another offset alone. *)
Lemma getPixelColor_set_other px x y x' y' W c :
  (y' * W + x') * 4 + 3 < (y * W + x) * 4 \/
  (y * W + x) * 4 + 3 < (y' * W + x') * 4 ->
  getPixelColor (setPixelColor px x y W c) x' y' W = getPixelColor px x' y' W.
Proof.
  intros Hapart. unfold getPixelColor, setPixelColor.
  f_equal; rewrite !at_index_store, !store_length;
    repeat case_decide; try lia; done.
Qed.

Lemma index_in_range W H x y :
  in_bounds W H (x, y) ->
  0 <= (y * W + x) * 4 /\ (y * W + x) * 4 + 3 < 4 * W * H.
Proof. unfold in_bounds. simpl. intros [Hx Hy]. nia. Qed.

Lemma index_apart W H x y x' y' :
  in_bounds W H (x, y) -> in_bounds W H (x', y') -> (x, y) <> (x', y') ->
  (y' * W + x') * 4 + 3 < (y * W + x) * 4 \/
  (y * W + x) * 4 + 3 < (y' * W + x') * 4.
Proof.
  unfold in_bounds. simpl. intros [Hx Hy] [Hx' Hy'] Hne.
  destruct (Z.lt_trichotomy y y') as [Hlt|[Heq|Hgt]].
  - right. nia.
  - subst y'. assert (x <> x') by congruence. nia.
  - left. nia.
Qed.

(** The bounds test of the loop. *)
Lemma bounds_test W H x y :
  (x <? 0) || (x >=? W) || (y <? 0) || (y >=? H) = false <-> in_bounds W H (x, y).
Proof. unfold in_bounds. simpl. rewrite !orb_false_iff. lia. Qed.

End PixelFacts.

(** * Properties of the fill loop *)

Section LoopFacts.
Import Colors Fill FillSpec.
Implicit Types (px : list Z) (p q : Point) (st : LoopState).

Lemma region_in_bounds W H px seed p : region W H px seed p -> in_bounds W H p.
Proof. by destruct 1. Qed.

Lemma elem_of_coords W H p : p ∈ coords W H <-> in_bounds W H p.
Proof.
  unfold coords, in_bounds. rewrite list_elem_of_bind. split.
  - intros (x & Hy & Hx). apply list_elem_of_fmap in Hy as (y & -> & Hy).
    apply elem_of_seqZ in Hx, Hy. simpl. lia.
  - destruct p as [x y]. simpl. intros [Hx Hy]. exists x. split.
    + apply list_elem_of_fmap. exists y. split; [done|]. apply elem_of_seqZ. lia.
    + apply elem_of_seqZ. lia.
Qed.

Lemma coords_length W H : 0 <= W -> 0 <= H ->
  Z.of_nat (length (coords W H)) = W * H.
Proof.
  intros HW HH. unfold coords.
  assert (Hgen : forall l : list Z,
            Z.of_nat (length (l ≫= λ x, (λ y, (x, y)) <$> seqZ 0 H))
            = Z.of_nat (length l) * H).
  { induction l as [|x l IH]; [done|].
    rewrite bind_cons, length_app, Nat2Z.inj_add, IH, length_fmap, length_seqZ.
    simpl length. lia. }
  rewrite Hgen, length_seqZ. lia.
Qed.

Lemma coords_NoDup W H : NoDup (coords W H).
Proof.
  unfold coords.
  assert (Hgen : forall l : list Z, NoDup l ->
            NoDup (l ≫= λ x, (λ y, (x, y)) <$> seqZ 0 H)).
  { induction l as [|x l IH]; intros Hnd; [constructor|].
    apply NoDup_cons in Hnd as [Hx Hl].
    rewrite bind_cons. apply NoDup_app. split; [|split].
    - apply NoDup_fmap_2; [|apply NoDup_seqZ]. by intros y1 y2 [= ->].
    - intros [x' y'] Hin1 Hin2.
      apply list_elem_of_fmap in Hin1 as (y & [= -> ->] & _).
      apply list_elem_of_bind in Hin2 as (x'' & Hin2 & Hx'').
      apply list_elem_of_fmap in Hin2 as (y'' & [= -> ->] & _). done.
    - by apply IH. }
  apply Hgen, NoDup_seqZ.
Qed.

Lemma filter_visited_le (l : list Point) (V : gset Point) p :
  (length (filter (λ q, q ∉ {[p]} ∪ V) l) <= length (filter (λ q, q ∉ V) l))%nat.
Proof.
  induction l as [|a l IH]; [done|].
  rewrite !filter_cons.
  destruct (decide (a ∉ {[p]} ∪ V)) as [Ha|Ha];
    destruct (decide (a ∉ V)) as [Hb|Hb]; simpl; try lia.
  set_solver.
Qed.

Lemma filter_visited_lt (l : list Point) (V : gset Point) p :
  p ∈ l -> p ∉ V ->
  (length (filter (λ q, q ∉ {[p]} ∪ V) l) < length (filter (λ q, q ∉ V) l))%nat.
Proof.
  induction l as [|a l IH]; intros Hin HV.
  - by apply elem_of_nil in Hin.
  - rewrite !filter_cons.
    pose proof (filter_visited_le l V p) as Hle.
    destruct (decide (a = p)) as [->|Hne].
    + destruct (decide (p ∉ {[p]} ∪ V)) as [Ha|Ha].
      { exfalso. apply Ha, elem_of_union_l, elem_of_singleton. done. }
      destruct (decide (p ∉ V)) as [Hb|Hb]; [|done]. simpl in *. lia.
    + apply elem_of_cons in Hin as [->|Hin]; [done|].
      specialize (IH Hin HV).
      destruct (decide (a ∉ {[p]} ∪ V)) as [Ha|Ha];
        destruct (decide (a ∉ V)) as [Hb|Hb]; simpl; try lia.
      set_solver.
Qed.

Lemma unvisited_insert (W H : Z) (V : gset Point) p :
  in_bounds W H p -> p ∉ V ->
  (unvisited W H ({[p]} ∪ V) < unvisited W H V)%nat.
Proof.
  intros Hin HV. apply filter_visited_lt; [|done]. by apply elem_of_coords.
Qed.

Lemma unvisited_le (W H : Z) (V : gset Point) :
  0 <= W -> 0 <= H -> Z.of_nat (unvisited W H V) <= W * H.
Proof.
  intros HW HH. rewrite <- (coords_length W H HW HH).
  apply inj_le, length_filter.
Qed.

(** The two ways an iteration can go. *)
Lemma visit_cases W H targetColor fillColor st x y rest :
  let st' := visit W H targetColor fillColor st (x, y) rest in
  (st' = mkLoop (pixels st) rest (visited st) (written st) /\
   ((x, y) ∈ visited st \/ (~ in_bounds W H (x, y)) \/
    color_at W (pixels st) (x, y) <> targetColor)) \/
  (((x, y) ∉ visited st) /\ in_bounds W H (x, y) /\
   color_at W (pixels st) (x, y) = targetColor /\
   st' = mkLoop (setPixelColor (pixels st) x y W fillColor)
                ((x, y - 1) :: (x, y + 1) :: (x - 1, y) :: (x + 1, y) :: rest)
                ({[ (x, y) ]} ∪ visited st)
                ((x, y) :: written st)).
Proof.
  unfold visit.
  destruct (decide ((x, y) ∈ visited st)) as [Hv|Hv]; [left; auto|].
  destruct ((x <? 0) || (x >=? W) || (y <? 0) || (y >=? H)) eqn:Hb.
  { left. split; [done|]. right. left. intros Hin.
    apply bounds_test in Hin. congruence. }
  apply bounds_test in Hb.
  destruct (colorsMatch (getPixelColor (pixels st) x y W) targetColor) eqn:Hm; simpl.
  - right. apply colorsMatch_eq in Hm. done.
  - left. split; [done|]. right. right. by apply colorsMatch_neq in Hm.
Qed.

Lemma visit_measure W H targetColor fillColor st p rest :
  stack st = p :: rest ->
  (measure W H (visit W H targetColor fillColor st p rest) < measure W H st)%nat.
Proof.
  intros Hst. destruct p as [x y]. unfold measure. rewrite Hst.
  destruct (visit_cases W H targetColor fillColor st x y rest)
    as [[-> _]|(Hv & Hin & _ & ->)]; simpl.
  - lia.
  - pose proof (unvisited_insert W H (visited st) (x, y) Hin Hv). lia.
Qed.

(** The loop of the first variant empties the stack within [measure]
    iterations, whatever the stack, the visited set and the pixels. *)
Lemma V1_loop_terminates W H targetColor fillColor fuel st :
  (measure W H st <= fuel)%nat ->
  exists st', V1.loop W H targetColor fillColor fuel st = Some st' /\ stack st' = [].
Proof.
  revert st. induction fuel as [|fuel IH]; intros st Hm.
  - destruct (stack st) as [|p rest] eqn:Hst.
    + exists st. simpl. by rewrite Hst.
    + unfold measure in Hm. rewrite Hst in Hm. simpl in Hm. lia.
  - destruct (stack st) as [|p rest] eqn:Hst.
    + exists st. simpl. by rewrite Hst.
    + simpl. rewrite Hst. apply IH.
      pose proof (visit_measure W H targetColor fillColor st p rest Hst). lia.
Qed.

Lemma measure_start W H px p :
  0 <= W -> 0 <= H ->
  Z.of_nat (measure W H (mkLoop px [p] ∅ [])) <= 4 * (W * H) + 1.
Proof.
  intros HW HH. unfold measure. simpl.
  pose proof (unvisited_le W H ∅ HW HH). lia.
Qed.

Lemma visit_write_inv W H targetColor fillColor st p rest :
  write_inv W H st ->
  write_inv W H (visit W H targetColor fillColor st p rest).
Proof.
  intros [Hnd Hvis Hb]. destruct p as [x y].
  destruct (visit_cases W H targetColor fillColor st x y rest)
    as [[-> _]|(Hv & Hin & _ & ->)]; split; simpl; try done.
  - apply NoDup_cons. split; [|done]. by rewrite Hvis.
  - intros p. rewrite elem_of_cons, elem_of_union, elem_of_singleton, Hvis. done.
  - intros p [->%elem_of_singleton|Hp]%elem_of_union; auto.
Qed.

Lemma start_write_inv W H px (s : list Point) : write_inv W H (mkLoop px s ∅ []).
Proof.
  split; simpl.
  - apply NoDup_nil_2.
  - intros p. rewrite elem_of_nil, elem_of_empty. done.
  - intros p Hp. by apply elem_of_empty in Hp.
Qed.

Lemma V1_loop_write_inv W H targetColor fillColor fuel st st' :
  write_inv W H st ->
  V1.loop W H targetColor fillColor fuel st = Some st' ->
  write_inv W H st'.
Proof.
  revert st. induction fuel as [|fuel IH]; intros st Hi; simpl;
    destruct (stack st) as [|p rest] eqn:Hst; try congruence.
  intros Hl. eapply IH; [|exact Hl]. by apply visit_write_inv.
Qed.

(** A duplicate-free list of coordinates of the buffer has at most
    [W * H] entries. *)
Lemma writes_bounded W H (l : list Point) :
  0 <= W -> 0 <= H ->
  NoDup l -> (forall p, p ∈ l -> in_bounds W H p) ->
  Z.of_nat (length l) <= W * H.
Proof.
  intros HW HH Hnd Hin.
  rewrite <- (coords_length W H HW HH).
  apply inj_le, submseteq_length, NoDup_submseteq; [done|].
  intros p Hp. apply elem_of_coords. auto.
Qed.

End LoopFacts.

(** * Correctness of the fill loop of the first variant *)

Section FillCorrect.
Import Colors Fill FillSpec.

Variables (W H : Z) (B0 : list Z) (seed : Point) (fillColor : Color).
Hypothesis Hlen : Z.of_nat (length B0) = 4 * W * H.
Hypothesis Hseed : in_bounds W H seed.
Hypothesis Hvalid : valid_color fillColor.

Implicit Types (p q : Point) (st : LoopState).

Local Abbreviation target := (color_at W B0 seed).
Local Abbreviation inv := (fill_inv W H B0 seed fillColor).
Local Abbreviation step := (visit W H target fillColor).

Lemma start_inv : inv (mkLoop B0 [seed] ∅ []).
Proof.
  split; simpl; try done.
  - intros q Hq. apply list_elem_of_singleton in Hq. by left.
  - right. by apply list_elem_of_singleton.
Qed.

(** A popped coordinate that is skipped is visited, outside the buffer,
    or not of the target colour in the original buffer. *)
Lemma skipped_not_pending st x y :
  inv st ->
  ((x, y) ∈ visited st \/ (~ in_bounds W H (x, y)) \/
   color_at W (pixels st) (x, y) <> target) ->
  in_bounds W H (x, y) -> color_at W B0 (x, y) = target ->
  (x, y) ∈ visited st.
Proof.
  intros Hi Hwhy Hin Hcol.
  destruct (decide ((x, y) ∈ visited st)) as [Hv|Hv]; [done|].
  destruct Hwhy as [Hv'|[Hout|Hne]]; [done|done|].
  exfalso. apply Hne. rewrite <- Hcol. by apply (fi_kept _ _ _ _ _ _ Hi).
Qed.

Lemma adjacent_cases x y q :
  adjacent (x, y) q ->
  q = (x + 1, y) \/ q = (x - 1, y) \/ q = (x, y + 1) \/ q = (x, y - 1).
Proof.
  destruct q as [qx qy]. unfold adjacent. simpl.
  intros [[-> ->]|[[-> ->]|[[-> ->]|[-> ->]]]]; auto.
Qed.

Lemma visit_inv st p rest :
  inv st -> stack st = p :: rest -> inv (step st p rest).
Proof.
  intros Hi Hst. destruct p as [x y].
  destruct (visit_cases W H target fillColor st x y rest)
    as [[-> Hwhy]|(Hv & Hin & Hcol & ->)].
  - (* skipped *)
    pose proof (skipped_not_pending st x y Hi Hwhy) as Hskip.
    destruct Hi as [Hl Hreg Hfill Hkept Hstk Hclo Hsd]. split; simpl; try done.
    + intros q Hq. apply Hstk. rewrite Hst. by apply list_elem_of_further.
    + intros p q Hp Hadj Hq Hc.
      destruct (Hclo p q Hp Hadj Hq Hc) as [Hqv|Hqs]; [by left|].
      rewrite Hst in Hqs. apply elem_of_cons in Hqs as [->|Hqs]; [|by right].
      left. by apply Hskip.
    + destruct Hsd as [Hsv|Hss]; [by left|].
      rewrite Hst in Hss. apply elem_of_cons in Hss as [Heq|Hss]; [|by right].
      left. rewrite Heq in *. by apply Hskip.
  - (* written *)
    pose proof Hi as [Hl Hreg Hfill Hkept Hstk Hclo Hsd].
    assert (Horig : color_at W B0 (x, y) = target).
    { rewrite <- Hcol. symmetry. by apply Hkept. }
    assert (Hxy : region W H B0 seed (x, y)).
    { destruct (Hstk (x, y)) as [->|(p & Hp & Hadj)].
      - rewrite Hst. apply list_elem_of_here.
      - by apply region_seed.
      - apply (region_step _ _ _ _ p); auto. }
    destruct (index_in_range W H x y Hin) as [Hlo Hhi].
    assert (Hother : forall x' y', in_bounds W H (x', y') -> (x', y') <> (x, y) ->
              color_at W (setPixelColor (pixels st) x y W fillColor) (x', y')
              = color_at W (pixels st) (x', y')).
    { intros x' y' Hin' Hne. unfold color_at. simpl.
      apply getPixelColor_set_other.
      apply (index_apart W H x y x' y'); [done|done|congruence]. }
    split; simpl.
    + by rewrite setPixelColor_length.
    + intros p [->%elem_of_singleton|Hp]%elem_of_union; auto.
    + intros p [->%elem_of_singleton|Hp]%elem_of_union.
      * unfold color_at. simpl. apply getPixelColor_set_same; [done|lia|done].
      * destruct p as [x' y']. rewrite Hother; [by apply Hfill| |].
        -- apply (region_in_bounds W H B0 seed). by apply Hreg.
        -- intros [= -> ->]. done.
    + intros [x' y'] Hin' Hnv. rewrite Hother; [|done|].
      * apply Hkept; [done|]. intros Hv'. apply Hnv. by apply elem_of_union_r.
      * intros [= -> ->]. apply Hnv. by apply elem_of_union_l, elem_of_singleton.
    + intros q Hq. rewrite !elem_of_cons in Hq.
      assert (Hnew : adjacent (x, y) q ->
                q = seed \/ exists p, p ∈ {[(x, y)]} ∪ visited st /\ adjacent p q).
      { intros Hadj. right. exists (x, y). split; [|done].
        by apply elem_of_union_l, elem_of_singleton. }
      destruct Hq as [->|[->|[->|[->|Hq]]]];
        try (apply Hnew; unfold adjacent; simpl; lia).
      destruct (Hstk q) as [->|(p & Hp & Hadj)].
      * rewrite Hst. by apply list_elem_of_further.
      * by left.
      * right. exists p. split; [by apply elem_of_union_r|done].
    + intros p q [->%elem_of_singleton|Hp]%elem_of_union Hadj Hq Hc.
      * right. rewrite !elem_of_cons.
        destruct (adjacent_cases x y q Hadj) as [-> | [-> | [-> | ->]]]; auto.
      * destruct (Hclo p q Hp Hadj Hq Hc) as [Hqv|Hqs].
        -- left. by apply elem_of_union_r.
        -- rewrite Hst in Hqs. apply elem_of_cons in Hqs as [->|Hqs].
           ++ left. by apply elem_of_union_l, elem_of_singleton.
           ++ right. by do 4 apply list_elem_of_further.
    + destruct Hsd as [Hsv|Hss].
      * left. by apply elem_of_union_r.
      * rewrite Hst in Hss. apply elem_of_cons in Hss as [->|Hss].
        -- left. by apply elem_of_union_l, elem_of_singleton.
        -- right. by do 4 apply list_elem_of_further.
Qed.

Lemma V1_loop_inv fuel st st' :
  inv st ->
  V1.loop W H target fillColor fuel st = Some st' ->
  inv st' /\ stack st' = [].
Proof.
  revert st. induction fuel as [|fuel IH]; intros st Hi; simpl;
    destruct (stack st) as [|p rest] eqn:Hst; try congruence.
  - intros [= <-]. done.
  - intros [= <-]. done.
  - intros Hl. eapply IH; [|exact Hl]. by apply visit_inv.
Qed.

(** With the stack empty the visited set is the whole region. *)
Lemma visited_covers_region st :
  inv st -> stack st = [] -> forall p, region W H B0 seed p -> p ∈ visited st.
Proof.
  intros Hi Hst p Hp. induction Hp as [Hin|p q Hp IH Hadj Hq Hc].
  - destruct (fi_seed _ _ _ _ _ _ Hi) as [Hv|Hs]; [done|].
    rewrite Hst in Hs. by apply elem_of_nil in Hs.
  - destruct (fi_closed _ _ _ _ _ _ Hi p q IH Hadj Hq Hc) as [Hv|Hs]; [done|].
    rewrite Hst in Hs. by apply elem_of_nil in Hs.
Qed.

(** The loop started on the seed ends, and it recolours exactly the
    region. *)
Lemma V1_loop_fills_region (fuel : nat) :
  4 * (W * H) + 1 <= Z.of_nat fuel ->
  exists st',
    V1.loop W H target fillColor fuel (mkLoop B0 [seed] ∅ []) = Some st' /\
    length (pixels st') = length B0 /\
    (forall p, region W H B0 seed p -> color_at W (pixels st') p = fillColor) /\
    (forall p, in_bounds W H p -> ~ region W H B0 seed p ->
               color_at W (pixels st') p = color_at W B0 p) /\
    (forall p, p ∈ written st' <-> region W H B0 seed p) /\
    NoDup (written st').
Proof.
  intros Hfuel.
  assert (HW : 0 <= W) by (destruct Hseed; lia).
  assert (HH : 0 <= H) by (destruct Hseed; lia).
  destruct (V1_loop_terminates W H target fillColor fuel (mkLoop B0 [seed] ∅ []))
    as (st' & Hrun & Hemp).
  { pose proof (measure_start W H B0 seed HW HH). lia. }
  exists st'. split; [done|].
  destruct (V1_loop_inv fuel _ st' start_inv Hrun) as [Hi _].
  assert (Hw : write_inv W H st').
  { apply (V1_loop_write_inv W H target fillColor fuel (mkLoop B0 [seed] ∅ []));
      [|done]. apply start_write_inv. }
  pose proof (visited_covers_region st' Hi Hemp) as Hcov.
  split; [apply (fi_length _ _ _ _ _ _ Hi)|].
  split; [intros p Hp; apply (fi_filled _ _ _ _ _ _ Hi); auto|].
  split.
  { intros p Hin Hnr. apply (fi_kept _ _ _ _ _ _ Hi); [done|].
    intros Hv. apply Hnr. by apply (fi_region _ _ _ _ _ _ Hi). }
  split; [|apply (wi_nodup _ _ _ Hw)].
  intros p. rewrite (wi_visited _ _ _ Hw). split; [|by apply Hcov].
  apply (fi_region _ _ _ _ _ _ Hi).
Qed.

End FillCorrect.

(** * Numbers that need not be integers *)

Section RatioFacts.
Import Colors Fill.

Lemma whole_of_Z (n : Z) : V2.whole (Qc_of_Z n) = Some n.
Proof. reflexivity. Qed.

(** An integer is below a number exactly when it is below the number
    rounded up. *)
Lemma lt_ceiling (n : Z) (q : Qc) : (Qc_of_Z n < q)%Qc <-> n < Qceiling q.
Proof.
  unfold Qclt. change (Qc_of_Z n : Q) with (inject_Z n). split.
  - intros Hlt. rewrite Zlt_Qlt.
    eapply Qlt_le_trans; [exact Hlt|apply Qle_ceiling].
  - intros Hlt. eapply Qle_lt_trans; [|apply Qceiling_lt].
    rewrite <- Zle_Qle. lia.
Qed.


Lemma ceiling_of_Z (n : Z) : Qceiling (Qc_of_Z n) = n.
Proof. change (Qc_of_Z n : Q) with (inject_Z n). apply Qceiling_Z. Qed.

(** The loop test [iterations < maxIterations]. *)
Lemma cap_test (n : Z) (q : Qc) :
  bool_decide (Qc_of_Z n < q)%Qc = (n <? Qceiling q).
Proof.
  destruct (n <? Qceiling q) eqn:Hlt.
  - apply bool_decide_eq_true. apply lt_ceiling. lia.
  - apply bool_decide_eq_false. rewrite lt_ceiling. lia.
Qed.

(** The bounds test [x >= width * dpr] at an integer bound. *)
Lemma bound_test (W x : Z) :
  bool_decide (Qc_of_Z W <= Qc_of_Z x)%Qc = (x >=? W).
Proof.
  rewrite Z.geb_leb. destruct (W <=? x) eqn:Hge.
  - apply bool_decide_eq_true. apply (proj1 (Z2Qc_inj_le W x)). lia.
  - apply bool_decide_eq_false. intros Hle.
    apply (proj2 (Z2Qc_inj_le W x)) in Hle. lia.
Qed.

Lemma index_whole (x y W : Z) :
  ((Qc_of_Z y * Qc_of_Z W + Qc_of_Z x) * Qc_of_Z 4)%Qc
  = Qc_of_Z ((y * W + x) * 4).
Proof. by rewrite !Z2Qc_inj_mul, Z2Qc_inj_add, Z2Qc_inj_mul. Qed.

Lemma index_plus (i k : Z) : (Qc_of_Z i + Qc_of_Z k)%Qc = Qc_of_Z (i + k).
Proof. by rewrite Z2Qc_inj_add. Qed.

(** At an integer row width the pixel accessors of the second variant
    are those of the first. *)
Lemma V2_getPixelColor_whole px (x y W : Z) :
  V2.getPixelColor px x y (Qc_of_Z W) = getPixelColor px x y W.
Proof.
  unfold V2.getPixelColor, getPixelColor, V2.element.
  rewrite index_whole.
  rewrite !index_plus. by rewrite !whole_of_Z.
Qed.

Lemma V2_setPixelColor_whole px (x y W : Z) (col : Color) :
  V2.setPixelColor px x y (Qc_of_Z W) col = setPixelColor px x y W col.
Proof.
  unfold V2.setPixelColor, setPixelColor, V2.assign.
  rewrite index_whole.
  rewrite !index_plus. by rewrite !whole_of_Z.
Qed.

Lemma V2_visit_whole (W H : Z) targetColor fillColor st p rest :
  V2.visit (Qc_of_Z W) (Qc_of_Z H) targetColor fillColor st p rest
  = visit W H targetColor fillColor st p rest.
Proof.
  destruct p as [x y]. unfold V2.visit, visit.
  rewrite !bound_test, V2_getPixelColor_whole, V2_setPixelColor_whole. done.
Qed.

Lemma V2_loop_whole (W H : Z) targetColor fillColor (maxIterations : Z) fuel
    (st : V2.CountedState) :
  V2.loop (Qc_of_Z W) (Qc_of_Z H) targetColor fillColor
          (Qc_of_Z maxIterations) fuel st
  = WholeRatio.loop W H targetColor fillColor maxIterations fuel st.
Proof.
  revert st. induction fuel as [|fuel IH]; intros st; simpl;
    destruct (stack (V2.loop_state st)) as [|p rest]; try done;
    rewrite cap_test, ceiling_of_Z; [done|].
  destruct (V2.iterations st <? maxIterations); [|done].
  by rewrite V2_visit_whole, IH.
Qed.

(** [devicePixelRatio || 1] keeps a ratio other than 0. *)
Lemma V2_floodFillWith_whole (width height d : Z) fuel now fillColor c
    (startX startY : Z) :
  d <> 0 ->
  V2.floodFillWith width height (Qc_of_Z d) fuel now fillColor c startX startY
  = WholeRatio.floodFillWith width height d fuel now fillColor c startX startY.
Proof.
  intros Hd. unfold V2.floodFillWith, WholeRatio.floodFillWith.
  rewrite bool_decide_eq_false_2
    by (rewrite <- Z2Qc_inj_0; by rewrite Z2Qc_inj_iff).
  rewrite <- !Z2Qc_inj_mul.
  destruct (getImageData (canvas c)) as [px|e]; [|done].
  rewrite V2_getPixelColor_whole.
  destruct (colorsMatch _ fillColor); [done|].
  by rewrite V2_loop_whole.
Qed.

End RatioFacts.

(** * The fill as a whole *)

Section FloodFillFacts.
Import Colors Fill FillSpec.
Implicit Types (c : Component) (p : Point).

Lemma getImageData_ok (cv : Canvas) :
  cwidth cv <> 0 -> cheight cv <> 0 -> getImageData cv = Normal (cdata cv).
Proof.
  intros HW HH. unfold getImageData.
  destruct (cwidth cv =? 0) eqn:E1; [lia|].
  destruct (cheight cv =? 0) eqn:E2; [lia|]. done.
Qed.

Lemma saveToHistory_ok (MAX now : Z) c :
  cwidth (canvas c) <> 0 -> cheight (canvas c) <> 0 ->
  saveToHistory MAX now c =
  Normal (mkComponent (canvas c)
            (History.saveToHistory MAX (hist c)
               (mkDrawingState (cdata (canvas c)) now))).
Proof.
  intros HW HH. unfold saveToHistory. by rewrite (getImageData_ok _ HW HH).
Qed.

(** The call on an in-bounds seed of another colour than the fill colour:
    the loop ends, its pixels are put on the canvas and a snapshot of them
    is pushed. *)
Lemma V1_floodFillWith_runs (fuel : nat) (now : Z) (fillColor : Color) c
    (seedX seedY : Z) :
  let W := cwidth (canvas c) in
  let H := cheight (canvas c) in
  let B := cdata (canvas c) in
  Z.of_nat (length B) = 4 * W * H ->
  in_bounds W H (seedX, seedY) ->
  valid_color fillColor ->
  colorsMatch (color_at W B (seedX, seedY)) fillColor = false ->
  4 * (W * H) + 1 <= Z.of_nat fuel ->
  exists st',
    V1.floodFillWith fuel now fillColor c seedX seedY =
      Some (Normal
        (mkComponent (mkCanvas W H (pixels st'))
           (History.saveToHistory 50 (hist c) (mkDrawingState (pixels st') now)),
         written st')) /\
    length (pixels st') = length B /\
    (forall p, region W H B (seedX, seedY) p ->
               color_at W (pixels st') p = fillColor) /\
    (forall p, in_bounds W H p -> ~ region W H B (seedX, seedY) p ->
               color_at W (pixels st') p = color_at W B p) /\
    (forall p, p ∈ written st' <-> region W H B (seedX, seedY) p) /\
    NoDup (written st').
Proof.
  intros W H B Hlen Hseed Hvalid Hdiff Hfuel.
  destruct (V1_loop_fills_region W H B (seedX, seedY) fillColor
              Hlen Hseed Hvalid fuel Hfuel) as (st' & Hrun & Hrest).
  exists st'. split; [|exact Hrest].
  assert (HW : W <> 0) by (destruct Hseed; simpl in *; lia).
  assert (HH : H <> 0) by (destruct Hseed; simpl in *; lia).
  unfold V1.floodFillWith.
  rewrite (getImageData_ok (canvas c) HW HH).
  fold W H B. unfold color_at in Hdiff, Hrun. simpl in Hdiff, Hrun.
  rewrite Hdiff, Hrun.
  rewrite saveToHistory_ok by done. done.
Qed.

(** C1: on a buffer of [4 * W * H] bytes, with the seed in bounds and a
    fill colour (four 8-bit channels) other than the colour at the seed,
    the call returns once the fuel covers [4 * W * H + 1] iterations;
    afterwards every pixel of the region of the seed holds the fill
    colour, and the four bytes of every other pixel are as before. *)
Theorem C1_fill_recolours_exactly_the_region (fuel : nat) (now : Z)
    (fillColor : Color) c (seedX seedY : Z) :
  let W := cwidth (canvas c) in
  let H := cheight (canvas c) in
  let B := cdata (canvas c) in
  Z.of_nat (length B) = 4 * W * H ->
  in_bounds W H (seedX, seedY) ->
  valid_color fillColor ->
  colorsMatch (color_at W B (seedX, seedY)) fillColor = false ->
  4 * (W * H) + 1 <= Z.of_nat fuel ->
  exists c' wr,
    V1.floodFillWith fuel now fillColor c seedX seedY = Some (Normal (c', wr)) /\
    cwidth (canvas c') = W /\ cheight (canvas c') = H /\
    length (cdata (canvas c')) = length B /\
    (forall p, region W H B (seedX, seedY) p ->
               color_at W (cdata (canvas c')) p = fillColor) /\
    (forall p, in_bounds W H p -> ~ region W H B (seedX, seedY) p ->
               color_at W (cdata (canvas c')) p = color_at W B p).
Proof.
  intros W H B Hlen Hseed Hvalid Hdiff Hfuel.
  destruct (V1_floodFillWith_runs fuel now fillColor c seedX seedY
              Hlen Hseed Hvalid Hdiff Hfuel)
    as (st' & Hcall & Hl & Hin & Hout & _).
  eexists _, _. split; [exact Hcall|]. simpl. auto.
Qed.

(** C10: in one call with a fill colour other than the target colour, the
    writes go to pairwise distinct coordinates of the buffer, so there are
    at most [W * H] of them; and a written pixel no longer matches the
    target colour. *)
Theorem C10_each_pixel_written_at_most_once (fuel : nat) (now : Z)
    (fillColor : Color) c (seedX seedY : Z) :
  let W := cwidth (canvas c) in
  let H := cheight (canvas c) in
  let B := cdata (canvas c) in
  Z.of_nat (length B) = 4 * W * H ->
  in_bounds W H (seedX, seedY) ->
  valid_color fillColor ->
  colorsMatch (color_at W B (seedX, seedY)) fillColor = false ->
  4 * (W * H) + 1 <= Z.of_nat fuel ->
  exists c' wr,
    V1.floodFillWith fuel now fillColor c seedX seedY = Some (Normal (c', wr)) /\
    NoDup wr /\
    (forall p, p ∈ wr ->
       in_bounds W H p /\
       colorsMatch (color_at W (cdata (canvas c')) p)
                   (color_at W B (seedX, seedY)) = false) /\
    Z.of_nat (length wr) <= W * H.
Proof.
  intros W H B Hlen Hseed Hvalid Hdiff Hfuel.
  destruct (V1_floodFillWith_runs fuel now fillColor c seedX seedY
              Hlen Hseed Hvalid Hdiff Hfuel)
    as (st' & Hcall & Hl & Hin & Hout & Hwr & Hnd).
  eexists _, _. split; [exact Hcall|]. simpl.
  assert (Hb : forall p, p ∈ written st' -> in_bounds W H p).
  { intros p Hp. apply (region_in_bounds W H B (seedX, seedY)). by apply Hwr. }
  split; [done|]. split.
  - intros p Hp. split; [auto|].
    assert (Hc : color_at W (pixels st') p = fillColor)
      by (apply Hin; by apply Hwr).
    rewrite Hc. apply colorsMatch_neq. apply colorsMatch_neq in Hdiff. congruence.
  - apply writes_bounded; [destruct Hseed; simpl in *; lia ..|done|done].
Qed.

(** C5: when the colour at an in-bounds seed equals the fill colour on all
    four channels, the call returns at once, for any fuel: the component
    (canvas bytes and history) is untouched and no pixel is written. *)
Theorem C5_fill_with_same_colour_is_noop (fuel : nat) (now : Z)
    (fillColor : Color) c (seedX seedY : Z) :
  let W := cwidth (canvas c) in
  let H := cheight (canvas c) in
  in_bounds W H (seedX, seedY) ->
  colorsMatch (color_at W (cdata (canvas c)) (seedX, seedY)) fillColor = true ->
  V1.floodFillWith fuel now fillColor c seedX seedY = Some (Normal (c, [])).
Proof.
  intros W H Hseed Hsame.
  assert (HW : W <> 0) by (destruct Hseed; simpl in *; lia).
  assert (HH : H <> 0) by (destruct Hseed; simpl in *; lia).
  unfold V1.floodFillWith. rewrite (getImageData_ok (canvas c) HW HH).
  unfold color_at in Hsame. simpl in Hsame. fold W. by rewrite Hsame.
Qed.

(** C8 (as amended): on a seed outside a non-empty buffer the call
    completes normally: no error is raised, no pixel is written and the
    canvas is as before. The colour read at the seed's offset decides the
    history: if it matches the fill colour the history is left alone, and
    if not it receives a snapshot of the unchanged canvas. *)
Theorem C8_out_of_bounds_seed_completes (fuel : nat) (now : Z)
    (fillColor : Color) c (seedX seedY : Z) :
  let W := cwidth (canvas c) in
  let H := cheight (canvas c) in
  0 < W -> 0 < H ->
  ~ in_bounds W H (seedX, seedY) ->
  (1 <= fuel)%nat ->
  exists c',
    V1.floodFillWith fuel now fillColor c seedX seedY = Some (Normal (c', [])) /\
    canvas c' = canvas c /\
    hist c' =
      (if colorsMatch (getPixelColor (cdata (canvas c)) seedX seedY W) fillColor
       then hist c
       else History.saveToHistory 50 (hist c)
              (mkDrawingState (cdata (canvas c)) now)).
Proof.
  intros W H HW HH Hout Hfuel.
  unfold V1.floodFillWith.
  rewrite (getImageData_ok (canvas c)) by (fold W H; lia).
  fold W H.
  destruct (colorsMatch (getPixelColor (cdata (canvas c)) seedX seedY W) fillColor).
  { exists c. auto. }
  destruct fuel as [|fuel]; [lia|].
  assert (Hskip : forall t st, stack st = [(seedX, seedY)] -> visited st = ∅ ->
            V1.loop W H t fillColor (S fuel) st
            = Some (mkLoop (pixels st) [] ∅ (written st))).
  { intros t st Hst Hv. simpl. rewrite Hst.
    destruct (visit_cases W H t fillColor st seedX seedY [])
      as [[-> _]|(_ & Hin & _)]; [|done].
    rewrite Hv. by destruct fuel. }
  rewrite Hskip by done.
  rewrite saveToHistory_ok by (simpl; fold W H; lia).
  eexists. split; [done|]. simpl. split; [|done].
  unfold putImageData. by destruct (canvas c).
Qed.

(** The counted loop of the second variant ends once the counter has
    reached [maxIterations] rounded up, and never counts past it. *)
Lemma V2_loop_capped (W H : Qc) targetColor fillColor (maxIterations : Qc) fuel
    (st : V2.CountedState) :
  Qceiling maxIterations - V2.iterations st <= Z.of_nat fuel ->
  exists st',
    V2.loop W H targetColor fillColor maxIterations fuel st = Some st' /\
    V2.iterations st <= V2.iterations st' /\
    V2.iterations st' <= Z.max (V2.iterations st) (Qceiling maxIterations) /\
    (stack (V2.loop_state st') = [] \/
     Qceiling maxIterations <= V2.iterations st').
Proof.
  revert st. induction fuel as [|fuel IH]; intros st Hfuel.
  - exists st. simpl.
    destruct (stack (V2.loop_state st)) as [|p rest] eqn:Hst.
    + split; [done|]. split; [lia|]. split; [lia|]. by left.
    + rewrite cap_test.
      destruct (V2.iterations st <? Qceiling maxIterations) eqn:Hlt; [lia|].
      split; [done|]. split; [lia|]. split; [lia|]. right. lia.
  - simpl. destruct (stack (V2.loop_state st)) as [|p rest] eqn:Hst.
    + exists st. split; [done|]. split; [lia|]. split; [lia|]. by left.
    + rewrite cap_test.
      destruct (V2.iterations st <? Qceiling maxIterations) eqn:Hlt.
      * destruct (IH (V2.mkCounted
                        (V2.visit W H targetColor fillColor (V2.loop_state st) p rest)
                        (V2.iterations st + 1)))
          as (st' & Hrun & Hlo & Hhi & Hend); [simpl; lia|].
        simpl in *. exists st'. split; [done|]. split; [lia|]. split; [lia|done].
      * exists st. split; [done|]. split; [lia|]. split; [lia|]. right. lia.
Qed.

(** The same at a whole ratio. *)
Lemma whole_loop_capped W H targetColor fillColor maxIterations fuel
    (st : V2.CountedState) :
  maxIterations - V2.iterations st <= Z.of_nat fuel ->
  exists st',
    WholeRatio.loop W H targetColor fillColor maxIterations fuel st = Some st' /\
    V2.iterations st <= V2.iterations st' /\
    V2.iterations st' <= Z.max (V2.iterations st) maxIterations /\
    (stack (V2.loop_state st') = [] \/ maxIterations <= V2.iterations st').
Proof.
  intros Hfuel.
  destruct (V2_loop_capped (Qc_of_Z W) (Qc_of_Z H) targetColor fillColor
              (Qc_of_Z maxIterations) fuel st) as (st' & Hrun & Hrest).
  { by rewrite ceiling_of_Z. }
  rewrite ceiling_of_Z in Hrest. rewrite V2_loop_whole in Hrun. by exists st'.
Qed.


End FloodFillFacts.

(** * The fill on concrete inputs *)

Section FloodFillExamples.
Import Colors Fill FillSpec Samples.

(** Scenario 1 of the specification: filling the 5 by 5 white buffer from
    (2, 2) with black turns all 25 pixels black, in 25 writes. *)
Example scenario_5x5 :
  exists c' wr,
    V1.floodFill 101 0 "#000000" (blank 5 5) 2 2 = Some (Normal (c', wr)) /\
    cdata (canvas c') = concat (replicate 25 [0; 0; 0; 255]) /\
    length wr = 25%nat.
Proof. eexists _, _. vm_compute. done. Qed.

(** On the 1 by 1 buffer the loop of the first variant takes five
    iterations: one write and four skipped neighbours. *)
Example V1_five_iterations :
  V1.loop 1 1 white black 4 start1x1 = None /\
  exists st', V1.loop 1 1 white black 5 start1x1 = Some st' /\
              pixels st' = [0; 0; 0; 255].
Proof. split; [reflexivity|]. eexists. vm_compute. done. Qed.

(** The counter of the second variant counts skipped coordinates too: on
    the 2 by 1 white buffer it stops the loop after two iterations and the
    pixel (1, 0) stays white, where the first variant fills both. *)
Example V2_cap_cuts_fill :
  (exists c' wr,
     V2.floodFillWith 2 1 (Qc_of_Z 1) 100 0 black (blank 2 1) 0 0
       = Some (Normal (c', wr)) /\
     cdata (canvas c') = [0; 0; 0; 255; 255; 255; 255; 255]) /\
  (exists c' wr,
     V1.floodFillWith 100 0 black (blank 2 1) 0 0 = Some (Normal (c', wr)) /\
     cdata (canvas c') = [0; 0; 0; 255; 0; 0; 0; 255]).
Proof. split; eexists _, _; vm_compute; done. Qed.



(** C1 on the 2 by 1 white buffer filled with black from (0, 0). *)
Lemma C1_witness :
  exists c' wr,
    V1.floodFillWith 9 0 black (blank 2 1) 0 0 = Some (Normal (c', wr)) /\
    cwidth (canvas c') = 2 /\ cheight (canvas c') = 1 /\
    length (cdata (canvas c')) = 8%nat /\
    (forall p, region 2 1 (white_pixels 2) (0, 0) p ->
               color_at 2 (cdata (canvas c')) p = black) /\
    (forall p, in_bounds 2 1 p -> ~ region 2 1 (white_pixels 2) (0, 0) p ->
               color_at 2 (cdata (canvas c')) p = color_at 2 (white_pixels 2) p).
Proof.
  apply (C1_fill_recolours_exactly_the_region 9 0 black (blank 2 1) 0 0).
  - reflexivity.
  - unfold in_bounds. simpl. lia.
  - unfold valid_color. simpl. lia.
  - reflexivity.
  - by_eval.
Defined.

(** C10 on the same fill. *)
Lemma C10_witness :
  exists c' wr,
    V1.floodFillWith 9 0 black (blank 2 1) 0 0 = Some (Normal (c', wr)) /\
    NoDup wr /\
    (forall p, p ∈ wr ->
       in_bounds 2 1 p /\
       colorsMatch (color_at 2 (cdata (canvas c')) p)
                   (color_at 2 (white_pixels 2) (0, 0)) = false) /\
    Z.of_nat (length wr) <= 2 * 1.
Proof.
  apply (C10_each_pixel_written_at_most_once 9 0 black (blank 2 1) 0 0).
  - reflexivity.
  - unfold in_bounds. simpl. lia.
  - unfold valid_color. simpl. lia.
  - reflexivity.
  - by_eval.
Defined.

(** C5 on the 1 by 1 white buffer filled with white. *)
Lemma C5_witness :
  in_bounds 1 1 (0, 0) /\
  colorsMatch (color_at 1 (white_pixels 1) (0, 0)) white = true /\
  V1.floodFillWith 0 0 white (blank 1 1) 0 0 = Some (Normal (blank 1 1, [])).
Proof.
  split; [unfold in_bounds; simpl; lia|]. split; [reflexivity|].
  apply (C5_fill_with_same_colour_is_noop 0 0 white (blank 1 1) 0 0).
  - unfold in_bounds. simpl. lia.
  - reflexivity.
Defined.

(** C8, as stated, fails: seeded at (5, 5) outside the 1 by 1 buffer the
    call returns normally. *)
Lemma C8_no_error_counterexample :
  ~ AsStated.out_of_bounds_fails 1 0 black (blank 1 1) 5 5.
Proof.
  intros Hclaim. destruct Hclaim as [e He].
  - unfold in_bounds. simpl. lia.
  - vm_compute in He. discriminate He.
Qed.

(** The amended C8 on the 1 by 1 buffer seeded at (5, 5). *)
Lemma C8_witness :
  ~ in_bounds 1 1 (5, 5) /\
  exists c',
    V1.floodFillWith 1 0 black (blank 1 1) 5 5 = Some (Normal (c', [])) /\
    canvas c' = canvas (blank 1 1) /\
    hist c' =
      (if colorsMatch (getPixelColor (cdata (canvas (blank 1 1))) 5 5 1) black
       then hist (blank 1 1)
       else History.saveToHistory 50 (hist (blank 1 1))
              (mkDrawingState (cdata (canvas (blank 1 1))) 0)).
Proof.
  split; [unfold in_bounds; simpl; lia|].
  apply (C8_out_of_bounds_seed_completes 1 0 black (blank 1 1) 5 5).
  - by_eval.
  - by_eval.
  - unfold in_bounds. simpl. lia.
  - lia.
Defined.

End FloodFillExamples.

(** * Further properties of the history *)

Section HistoryMore.
Import History.
Context {A : Type}.
Variable MAX : Z.
Implicit Types (st : HistoryState A) (snap : A).

(** A push with the cursor on the last entry. *)
Lemma saveToHistory_at_tail st snap :
  historyStep st = len st - 1 ->
  saveToHistory MAX st snap =
  if len st + 1 >? MAX
  then mkHistory (drop 1 (history st ++ [snap])) (historyStep st)
  else mkHistory (history st ++ [snap]) (historyStep st + 1).
Proof.
  intros Hc. unfold len in *.
  destruct (slice0_prefix (history st) (historyStep st + 1)) as [Hs Hl]; [lia|].
  unfold saveToHistory.
  rewrite length_app, Nat2Z.inj_add, Hl. simpl length.
  rewrite Hs, take_ge by lia.
  replace (historyStep st + 1 + Z.of_nat 1) with
    (Z.of_nat (length (history st)) + 1) by lia.
  done.
Qed.

Lemma push_all_suffix (snaps : list A) st :
  0 <= MAX ->
  len st <= MAX ->
  historyStep st = len st - 1 ->
  history (push_all MAX snaps st) =
  drop (length (history st) + length snaps - Z.to_nat MAX)
       (history st ++ snaps).
Proof.
  intros HM. revert st.
  induction snaps as [|s snaps IH]; intros st Hle Hc; unfold len in *.
  - simpl. rewrite app_nil_r.
    replace (length (history st) + 0 - Z.to_nat MAX)%nat with 0%nat by lia.
    done.
  - simpl. fold (push_all MAX snaps (saveToHistory MAX st s)).
    rewrite (saveToHistory_at_tail st s) by done. unfold len.
    destruct (Z.of_nat (length (history st)) + 1 >? MAX) eqn:Hev.
    + rewrite IH; unfold len; simpl;
        rewrite ?length_drop, ?length_app; simpl length; [|lia|lia].
      rewrite <- (drop_app_le (history st ++ [s]) snaps 1)
        by (rewrite length_app; simpl; lia).
      rewrite drop_drop, <- app_assoc. simpl. f_equal. lia.
    + rewrite IH; unfold len; simpl; rewrite ?length_app; simpl length; [|lia|lia].
      rewrite <- app_assoc. simpl. f_equal. lia.
Qed.

Lemma last_drop_lt (l : list A) (n : nat) :
  (n < length l)%nat -> last (drop n l) = last l.
Proof.
  intros Hn. rewrite <- (take_drop n l) at 2. rewrite last_app.
  destruct (last (drop n l)) eqn:Hlast; [done|].
  apply last_None in Hlast.
  apply (f_equal length) in Hlast. rewrite length_drop in Hlast.
  simpl in Hlast. lia.
Qed.

(** The bounded history is a window on the pushes: from the empty history
    it holds the last [MAX] snapshots pushed, oldest first, and (when
    [MAX] is positive) the cursor references the last one. *)
Theorem history_keeps_most_recent (snaps : list A) :
  0 <= MAX ->
  let st := push_all MAX snaps initial in
  history st = drop (length snaps - Z.to_nat MAX) snaps /\
  (1 <= MAX -> current st = last snaps).
Proof.
  intros HM st.
  assert (Hh : history st = drop (length snaps - Z.to_nat MAX) snaps).
  { subst st. rewrite push_all_suffix; [done|done|unfold len; simpl; lia|done]. }
  split; [done|]. intros H1.
  destruct (decide (length snaps = 0%nat)) as [Hz|Hpos].
  { destruct snaps; [reflexivity|done]. }
  destruct (push_all_length MAX snaps initial HM) as [Hl Hc].
  { unfold len. simpl. lia. }
  { done. }
  fold st in Hl, Hc. unfold current. rewrite Hc.
  unfold len in *. simpl in Hl.
  unfold at_index.
  destruct (Z.of_nat (length (history st)) - 1 <? 0) eqn:E; [lia|].
  replace (Z.to_nat (Z.of_nat (length (history st)) - 1))
    with (pred (length (history st))) by lia.
  rewrite <- last_lookup, Hh. apply last_drop_lt. lia.
Qed.

(** In every state reached from the empty history neither [undo] nor
    [redo] throws, and the cursor of a non-empty history is a valid
    index. *)
Theorem reachable_history_is_safe (ops : list (Op A)) :
  0 <= MAX ->
  let st := run MAX ops initial in
  (exists r, undo st = Normal r) /\
  (exists r, redo st = Normal r) /\
  (history st <> [] -> 0 <= historyStep st < len st) /\
  len st <= MAX.
Proof.
  intros HM st.
  destruct (run_inv MAX ops initial HM (initial_inv MAX HM)) as [Hlen Hc].
  fold st in Hlen, Hc. unfold len in *.
  split; [|split; [|split]]; [| | |done].
  - unfold undo. destruct (historyStep st >? 0) eqn:Hg; [|by eexists].
    destruct (lookup_lt_is_Some_2 (history st) (Z.to_nat (historyStep st - 1)))
      as [e He]; [destruct Hc as [[_ ?]|?]; lia|].
    unfold at_index. destruct (historyStep st - 1 <? 0) eqn:E; [lia|].
    rewrite He. by eexists.
  - unfold redo, len. destruct (historyStep st <? _) eqn:Hg; [|by eexists].
    destruct (lookup_lt_is_Some_2 (history st) (Z.to_nat (historyStep st + 1)))
      as [e He]; [destruct Hc as [[_ ?]|?]; lia|].
    unfold at_index. destruct (historyStep st + 1 <? 0) eqn:E.
    { destruct Hc as [[Hn Hs]|?]; [|lia]. rewrite Hn in Hg. simpl in Hg. lia. }
    rewrite He. by eexists.
  - intros Hne. destruct Hc as [[Hn _]|?]; [done|lia].
Qed.

Lemma undo_many (h : list A) (c : Z) (k : nat) :
  Z.of_nat k <= c < Z.of_nat (length h) ->
  run MAX (replicate k Undo) (mkHistory h c) = mkHistory h (c - Z.of_nat k).
Proof.
  revert c. induction k as [|k IH]; intros c Hc.
  - simpl. f_equal. lia.
  - simpl. unfold undo. simpl.
    destruct (c >? 0) eqn:Hg; [|lia].
    destruct (lookup_lt_is_Some_2 h (Z.to_nat (c - 1))) as [e He]; [lia|].
    unfold at_index. destruct (c - 1 <? 0) eqn:E; [lia|].
    rewrite He. simpl.
    fold (run MAX (replicate k Undo) (mkHistory h (c - 1))).
    rewrite IH by lia. f_equal. lia.
Qed.

Lemma redo_many (h : list A) (c : Z) (k : nat) :
  -1 <= c -> c + Z.of_nat k < Z.of_nat (length h) ->
  run MAX (replicate k Redo) (mkHistory h c) = mkHistory h (c + Z.of_nat k).
Proof.
  revert c. induction k as [|k IH]; intros c Hlo Hc.
  - simpl. f_equal. lia.
  - simpl. unfold redo, len. simpl.
    destruct (c <? Z.of_nat (length h) - 1) eqn:Hg; [|lia].
    destruct (lookup_lt_is_Some_2 h (Z.to_nat (c + 1))) as [e He]; [lia|].
    unfold at_index. destruct (c + 1 <? 0) eqn:E; [lia|].
    rewrite He. simpl.
    fold (run MAX (replicate k Redo) (mkHistory h (c + 1))).
    rewrite IH by lia. f_equal. lia.
Qed.

(** In a reachable state, [k] undos followed by [k] redos give back the
    state, as long as the cursor is at least [k]. *)
Theorem undos_then_redos (ops : list (Op A)) (k : nat) :
  0 <= MAX ->
  let st := run MAX ops initial in
  Z.of_nat k <= historyStep st ->
  run MAX (replicate k Redo) (run MAX (replicate k Undo) st) = st.
Proof.
  intros HM st Hk.
  destruct (run_inv MAX ops initial HM (initial_inv MAX HM)) as [Hlen Hc].
  fold st in Hlen, Hc. unfold len in *.
  assert (Hr : 0 <= historyStep st < Z.of_nat (length (history st))).
  { destruct Hc as [[_ ?]|?]; lia. }
  destruct st as [h c]. simpl in *.
  rewrite undo_many by lia. rewrite redo_many by lia. f_equal. lia.
Qed.

End HistoryMore.

(** * Further properties of the pixel accessors and of the fill *)

Section FillMore.
Import Colors Fill FillSpec.
Implicit Types (c : Component) (p q : Point) (px : list Z).

(** Writing a pixel of the buffer and reading it back gives the colour
    written; the other pixels of the buffer and its length are as
    before. *)
Theorem setPixelColor_round_trip px (W H x y : Z) (col : Color) :
  Z.of_nat (length px) = 4 * W * H ->
  in_bounds W H (x, y) ->
  valid_color col ->
  let px' := setPixelColor px x y W col in
  getPixelColor px' x y W = col /\
  length px' = length px /\
  (forall x' y', in_bounds W H (x', y') -> (x', y') <> (x, y) ->
     getPixelColor px' x' y' W = getPixelColor px x' y' W).
Proof.
  intros Hlen Hin Hvalid px'.
  destruct (index_in_range W H x y Hin) as [Hlo Hhi].
  split; [|split].
  - apply getPixelColor_set_same; [done|lia|done].
  - apply setPixelColor_length.
  - intros x' y' Hin' Hne. apply getPixelColor_set_other.
    apply (index_apart W H x y x' y'); [done|done|congruence].
Qed.

(** On a buffer of one colour every pixel is in the region of the seed. *)
Lemma uniform_region (W H : Z) px (seed : Point) :
  in_bounds W H seed ->
  (forall p, in_bounds W H p -> color_at W px p = color_at W px seed) ->
  forall p, in_bounds W H p -> region W H px seed p.
Proof.
  intros Hseed Huni.
  assert (Hgen : forall (n : nat) p, in_bounds W H p ->
            Z.abs (fst p - fst seed) + Z.abs (snd p - snd seed) = Z.of_nat n ->
            region W H px seed p).
  { induction n as [|n IH]; intros [x y] Hp Hd; destruct seed as [sx sy];
      unfold in_bounds in *; simpl in *.
    - assert (x = sx /\ y = sy) as [-> ->] by lia. by apply region_seed.
    - destruct (decide (x = sx)) as [->|Hx].
      + (* same column: step along y *)
        set (y0 := if decide (sy < y) then y - 1 else y + 1).
        assert (Hy0 : (sy < y /\ y0 = y - 1) \/ (y < sy /\ y0 = y + 1)).
        { subst y0. destruct (decide (sy < y)); lia. }
        apply (region_step W H px (sx, sy) (sx, y0)).
        * apply IH; unfold in_bounds; simpl; lia.
        * unfold adjacent. simpl. lia.
        * unfold in_bounds. simpl. lia.
        * apply Huni. simpl. lia.
      + set (x0 := if decide (sx < x) then x - 1 else x + 1).
        assert (Hx0 : (sx < x /\ x0 = x - 1) \/ (x < sx /\ x0 = x + 1)).
        { subst x0. destruct (decide (sx < x)); lia. }
        apply (region_step W H px (sx, sy) (x0, y)).
        * apply IH; unfold in_bounds; simpl; lia.
        * unfold adjacent. simpl. lia.
        * unfold in_bounds. simpl. lia.
        * apply Huni. simpl. lia. }
  intros p Hp.
  apply (Hgen (Z.to_nat (Z.abs (fst p - fst seed) + Z.abs (snd p - snd seed))) p Hp).
  lia.
Qed.

(** A duplicate-free list that holds exactly the coordinates of the
    buffer has [W * H] entries. *)
Lemma all_coords_length (W H : Z) (l : list Point) :
  0 <= W -> 0 <= H -> NoDup l ->
  (forall p, p ∈ l <-> in_bounds W H p) ->
  Z.of_nat (length l) = W * H.
Proof.
  intros HW HH Hnd Hall.
  rewrite <- (coords_length W H HW HH). f_equal.
  apply Permutation_length, NoDup_Permutation; [done|apply coords_NoDup|].
  intros p. rewrite Hall, elem_of_coords. done.
Qed.

(** Filling a buffer of one colour from any seed in bounds, with another
    colour, recolours every pixel, in exactly [W * H] writes. *)
Theorem fill_uniform_canvas (fuel : nat) (now : Z) (fillColor : Color) c
    (seedX seedY : Z) :
  let W := cwidth (canvas c) in
  let H := cheight (canvas c) in
  let B := cdata (canvas c) in
  Z.of_nat (length B) = 4 * W * H ->
  in_bounds W H (seedX, seedY) ->
  valid_color fillColor ->
  (forall p, in_bounds W H p -> color_at W B p = color_at W B (seedX, seedY)) ->
  colorsMatch (color_at W B (seedX, seedY)) fillColor = false ->
  4 * (W * H) + 1 <= Z.of_nat fuel ->
  exists c' wr,
    V1.floodFillWith fuel now fillColor c seedX seedY = Some (Normal (c', wr)) /\
    (forall p, in_bounds W H p -> color_at W (cdata (canvas c')) p = fillColor) /\
    Z.of_nat (length wr) = W * H.
Proof.
  intros W H B Hlen Hseed Hvalid Huni Hdiff Hfuel.
  destruct (V1_floodFillWith_runs fuel now fillColor c seedX seedY
              Hlen Hseed Hvalid Hdiff Hfuel)
    as (st' & Hcall & Hl & Hin & Hout & Hwr & Hnd).
  pose proof (uniform_region W H B (seedX, seedY) Hseed Huni) as Hall.
  eexists _, _. split; [exact Hcall|]. simpl. split.
  - intros p Hp. apply Hin. by apply Hall.
  - apply all_coords_length; [destruct Hseed; simpl in *; lia ..|done|].
    intros p. split.
    + intros Hp. apply (region_in_bounds W H B (seedX, seedY)). by apply Hwr.
    + intros Hp. apply Hwr. by apply Hall.
Qed.

(** A second fill with the same arguments right after the first changes
    nothing: it returns at once, whatever the fuel, leaving the component
    of the first fill and pushing no snapshot. *)
Theorem fill_twice_is_fill_once (fuel fuel' : nat) (now now' : Z)
    (fillColor : Color) c (seedX seedY : Z) :
  let W := cwidth (canvas c) in
  let H := cheight (canvas c) in
  let B := cdata (canvas c) in
  Z.of_nat (length B) = 4 * W * H ->
  in_bounds W H (seedX, seedY) ->
  valid_color fillColor ->
  colorsMatch (color_at W B (seedX, seedY)) fillColor = false ->
  4 * (W * H) + 1 <= Z.of_nat fuel ->
  exists c' wr,
    V1.floodFillWith fuel now fillColor c seedX seedY = Some (Normal (c', wr)) /\
    V1.floodFillWith fuel' now' fillColor c' seedX seedY = Some (Normal (c', [])).
Proof.
  intros W H B Hlen Hseed Hvalid Hdiff Hfuel.
  destruct (V1_floodFillWith_runs fuel now fillColor c seedX seedY
              Hlen Hseed Hvalid Hdiff Hfuel)
    as (st' & Hcall & Hl & Hin & _).
  eexists _, _. split; [exact Hcall|].
  assert (HW : W <> 0) by (destruct Hseed; simpl in *; lia).
  assert (HH : H <> 0) by (destruct Hseed; simpl in *; lia).
  unfold V1.floodFillWith. rewrite getImageData_ok by done. simpl.
  assert (Hs : getPixelColor (pixels st') seedX seedY W = fillColor).
  { apply (Hin (seedX, seedY)). by apply region_seed. }
  fold W. rewrite Hs.
  assert (Hm : colorsMatch fillColor fillColor = true) by by apply colorsMatch_eq.
  by rewrite Hm.
Qed.

End FillMore.

(** * The fill of the second variant *)

Section FillV2.
Import Colors Fill FillSpec.
Implicit Types (p q : Point) (st : LoopState).

(** The invariants of the fill along the counted loop, at a whole
    ratio. *)
Lemma whole_loop_fill_inv W H (B0 : list Z) (seed : Point) (fillColor : Color)
    maxIterations fuel (st st' : V2.CountedState) :
  Z.of_nat (length B0) = 4 * W * H ->
  in_bounds W H seed ->
  valid_color fillColor ->
  fill_inv W H B0 seed fillColor (V2.loop_state st) ->
  WholeRatio.loop W H (color_at W B0 seed) fillColor maxIterations fuel st = Some st' ->
  fill_inv W H B0 seed fillColor (V2.loop_state st').
Proof.
  intros Hlen Hseed Hvalid. revert st.
  induction fuel as [|fuel IH]; intros st Hi; simpl;
    destruct (stack (V2.loop_state st)) as [|p rest] eqn:Hst;
    try destruct (V2.iterations st <? maxIterations);
    try congruence.
  intros Hl. eapply IH; [|exact Hl]. simpl. by apply visit_inv.
Qed.

Lemma whole_loop_write_inv W H targetColor fillColor maxIterations fuel
    (st st' : V2.CountedState) :
  write_inv W H (V2.loop_state st) ->
  WholeRatio.loop W H targetColor fillColor maxIterations fuel st = Some st' ->
  write_inv W H (V2.loop_state st').
Proof.
  revert st. induction fuel as [|fuel IH]; intros st Hi; simpl;
    destruct (stack (V2.loop_state st)) as [|p rest] eqn:Hst;
    try destruct (V2.iterations st <? maxIterations);
    try congruence.
  intros Hl. eapply IH; [|exact Hl]. simpl. by apply visit_write_inv.
Qed.

(** What an iteration does to the sizes of the stack and of the log. *)
Lemma visit_sizes W H targetColor fillColor st p rest :
  let st' := visit W H targetColor fillColor st p rest in
  Z.of_nat (length (stack st')) - 4 * Z.of_nat (length (written st')) =
  Z.of_nat (length rest) - 4 * Z.of_nat (length (written st)) /\
  (length (written st) <= length (written st'))%nat.
Proof.
  destruct p as [x y].
  destruct (visit_cases W H targetColor fillColor st x y rest)
    as [[-> _]|(_ & _ & _ & ->)]; simpl; lia.
Qed.

(** Every iteration pops one coordinate and every write pushes four. *)
Lemma whole_loop_count W H targetColor fillColor maxIterations fuel
    (st st' : V2.CountedState) :
  WholeRatio.loop W H targetColor fillColor maxIterations fuel st = Some st' ->
  V2.iterations st' + Z.of_nat (length (stack (V2.loop_state st')))
    - 4 * Z.of_nat (length (written (V2.loop_state st'))) =
  V2.iterations st + Z.of_nat (length (stack (V2.loop_state st)))
    - 4 * Z.of_nat (length (written (V2.loop_state st))).
Proof.
  revert st. induction fuel as [|fuel IH]; intros st; simpl;
    destruct (stack (V2.loop_state st)) as [|p rest] eqn:Hst;
    try destruct (V2.iterations st <? maxIterations);
    try congruence.
  intros Hl. rewrite (IH _ Hl). simpl.
  pose proof (visit_sizes W H targetColor fillColor (V2.loop_state st) p rest)
    as [Hsz _]. simpl in Hsz. lia.
Qed.

(** The first variant's loop takes [stack + 4 * writes] iterations, and
    the counted loop follows it step by step while the counter allows. *)
Lemma V1_whole_agree W H targetColor fillColor fuel st st1 :
  V1.loop W H targetColor fillColor fuel st = Some st1 ->
  let k := Z.of_nat (length (stack st))
           + 4 * (Z.of_nat (length (written st1)) - Z.of_nat (length (written st))) in
  Z.of_nat (length (stack st)) <= k /\
  forall it maxIterations fuel2,
    it + k <= maxIterations -> k <= Z.of_nat fuel2 ->
    WholeRatio.loop W H targetColor fillColor maxIterations fuel2 (V2.mkCounted st it)
    = Some (V2.mkCounted st1 (it + k)).
Proof.
  revert st. induction fuel as [|fuel IH]; intros st; simpl;
    destruct (stack st) as [|p rest] eqn:Hst; try congruence.
  - intros [= <-]. simpl. split; [lia|]. intros it m f2 _ _.
    destruct f2; simpl; rewrite Hst; do 2 f_equal; lia.
  - intros [= <-]. simpl. split; [lia|]. intros it m f2 _ _.
    destruct f2; simpl; rewrite Hst; do 2 f_equal; lia.
  - intros Hl. destruct (IH _ Hl) as [Hk1 Hagree].
    pose proof (visit_sizes W H targetColor fillColor st p rest) as [Hsz Hmono].
    simpl in Hsz. simpl. split; [lia|].
    intros it m f2 Hit Hf2.
    destruct f2 as [|f2]; [lia|]. simpl. rewrite Hst.
    destruct (it <? m) eqn:Hlt; [|lia].
    rewrite Hagree by lia. do 2 f_equal. lia.
Qed.

(** At a whole device pixel ratio containment holds under the iteration
    cap: the call returns with fuel for [maxIterations] iterations; the
    pixels written are pairwise distinct pixels of the region of the seed
    and hold the fill colour; every other pixel of the buffer is as
    before. *)
Theorem V2_fill_stays_in_region (width height dpr : Z) (fuel : nat) (now : Z)
    (fillColor : Color) (c : Component) (seedX seedY : Z) :
  let W := width * dpr in
  let H := height * dpr in
  let B := cdata (canvas c) in
  cwidth (canvas c) = W -> cheight (canvas c) = H ->
  Z.of_nat (length B) = 4 * W * H ->
  in_bounds W H (seedX, seedY) ->
  valid_color fillColor ->
  colorsMatch (color_at W B (seedX, seedY)) fillColor = false ->
  width * height * dpr * dpr <= Z.of_nat fuel ->
  exists c' wr,
    V2.floodFillWith width height (Qc_of_Z dpr) fuel now fillColor c seedX seedY
      = Some (Normal (c', wr)) /\
    NoDup wr /\
    (forall p, p ∈ wr ->
       region W H B (seedX, seedY) p /\
       color_at W (cdata (canvas c')) p = fillColor) /\
    (forall p, in_bounds W H p -> p ∉ wr ->
       color_at W (cdata (canvas c')) p = color_at W B p).
Proof.
  intros W H B HcW HcH Hlen Hseed Hvalid Hdiff Hfuel.
  assert (HW : cwidth (canvas c) <> 0) by (destruct Hseed; simpl in *; lia).
  assert (HH : cheight (canvas c) <> 0) by (destruct Hseed; simpl in *; lia).
  set (start := V2.mkCounted (mkLoop B [(seedX, seedY)] ∅ []) 0).
  destruct (whole_loop_capped W H (color_at W B (seedX, seedY)) fillColor
              (width * height * dpr * dpr) fuel start)
    as (st' & Hrun & _); [simpl; lia|].
  pose proof (whole_loop_fill_inv W H B (seedX, seedY) fillColor _ fuel start st'
                Hlen Hseed Hvalid (start_inv W H B (seedX, seedY) fillColor)
                Hrun) as Hi.
  pose proof (whole_loop_write_inv W H _ fillColor _ fuel start st'
                (start_write_inv W H B [(seedX, seedY)]) Hrun) as Hw.
  rewrite V2_floodFillWith_whole by (destruct Hseed; simpl in *; nia).
  unfold WholeRatio.floodFillWith. rewrite getImageData_ok by done.
  fold W H B. unfold color_at in Hdiff, Hrun. simpl in Hdiff, Hrun.
  rewrite Hdiff. subst start. rewrite Hrun.
  rewrite saveToHistory_ok by done.
  eexists _, _. split; [done|]. simpl.
  split; [apply (wi_nodup _ _ _ Hw)|]. split.
  - intros p Hp. apply (wi_visited _ _ _ Hw) in Hp. split.
    + by apply (fi_region _ _ _ _ _ _ Hi).
    + by apply (fi_filled _ _ _ _ _ _ Hi).
  - intros p Hp Hnw. apply (fi_kept _ _ _ _ _ _ Hi); [done|].
    intros Hv. apply Hnw. by apply (wi_visited _ _ _ Hw).
Qed.

(** What an iteration of the second variant does to the sizes of the
    stack and of the log, at any row width. *)
Lemma V2_visit_sizes (W H : Qc) targetColor fillColor st p rest :
  let st' := V2.visit W H targetColor fillColor st p rest in
  Z.of_nat (length (stack st')) - 4 * Z.of_nat (length (written st')) =
  Z.of_nat (length rest) - 4 * Z.of_nat (length (written st)).
Proof.
  destruct p as [x y]. unfold V2.visit.
  repeat case_match; simpl; lia.
Qed.

(** Every iteration pops one coordinate and every call of
    [setPixelColor] is followed by four pushes, at any ratio. *)
Lemma V2_loop_count (W H : Qc) targetColor fillColor (maxIterations : Qc)
    fuel (st st' : V2.CountedState) :
  V2.loop W H targetColor fillColor maxIterations fuel st = Some st' ->
  V2.iterations st' + Z.of_nat (length (stack (V2.loop_state st')))
    - 4 * Z.of_nat (length (written (V2.loop_state st'))) =
  V2.iterations st + Z.of_nat (length (stack (V2.loop_state st)))
    - 4 * Z.of_nat (length (written (V2.loop_state st))).
Proof.
  revert st. induction fuel as [|fuel IH]; intros st; simpl;
    destruct (stack (V2.loop_state st)) as [|p rest] eqn:Hst;
    try destruct (bool_decide _);
    try congruence.
  intros Hl. rewrite (IH _ Hl). simpl.
  pose proof (V2_visit_sizes W H targetColor fillColor (V2.loop_state st) p rest)
    as Hsz. simpl in Hsz. lia.
Qed.

(** The counter of the second variant, at any device pixel ratio: from
    the start of a fill, when the loop ends the iterations made plus the
    coordinates left on the stack are one more than four times the calls
    of [setPixelColor], and the iterations do not exceed [maxIterations]
    rounded up. So a traversal that empties its stack made at most
    [(maxIterations - 1) / 4] such calls. *)
Theorem V2_iterations_count (W H : Qc) (targetColor fillColor : Color)
    (maxIterations : Qc) (fuel : nat) (px : list Z) (seed : Point) :
  0 <= Qceiling maxIterations <= Z.of_nat fuel ->
  exists fin : V2.CountedState,
    V2.loop W H targetColor fillColor maxIterations fuel
            (V2.mkCounted (mkLoop px [seed] ∅ []) 0) = Some fin /\
    V2.iterations fin + Z.of_nat (length (stack (V2.loop_state fin)))
      = 1 + 4 * Z.of_nat (length (written (V2.loop_state fin))) /\
    V2.iterations fin <= Qceiling maxIterations /\
    (stack (V2.loop_state fin) = [] ->
     4 * Z.of_nat (length (written (V2.loop_state fin))) + 1
       <= Qceiling maxIterations).
Proof.
  intros Hfuel.
  destruct (V2_loop_capped W H targetColor fillColor maxIterations fuel
              (V2.mkCounted (mkLoop px [seed] ∅ []) 0))
    as (st' & Hrun & _ & Hhi & _); [simpl; lia|].
  exists st'. split; [done|].
  pose proof (V2_loop_count _ _ _ _ _ _ _ _ Hrun) as Hcount. simpl in *.
  split; [lia|]. split; [lia|].
  intros Hemp. rewrite Hemp in Hcount. simpl in Hcount. lia.
Qed.

(** At a whole device pixel ratio, when the first variant's fill has
    written [n] pixels and [4 * n + 1] fits under the cap, the second
    variant fills like the first: same writes, same pixels on the
    canvas. *)
Theorem V2_fills_like_V1_under_cap (width height dpr : Z) (fuel fuel2 : nat)
    (now : Z) (fillColor : Color) (c c1 : Component) (wr : list Point)
    (seedX seedY : Z) :
  dpr <> 0 ->
  cwidth (canvas c) = width * dpr -> cheight (canvas c) = height * dpr ->
  V1.floodFillWith fuel now fillColor c seedX seedY = Some (Normal (c1, wr)) ->
  4 * Z.of_nat (length wr) + 1 <= width * height * dpr * dpr ->
  4 * Z.of_nat (length wr) + 1 <= Z.of_nat fuel2 ->
  exists c2,
    V2.floodFillWith width height (Qc_of_Z dpr) fuel2 now fillColor c seedX seedY
      = Some (Normal (c2, wr)) /\
    canvas c2 = canvas c1.
Proof.
  intros Hd HcW HcH Hfill Hcap Hfuel2.
  rewrite V2_floodFillWith_whole by done.
  unfold V1.floodFillWith in Hfill. unfold WholeRatio.floodFillWith.
  destruct (getImageData (canvas c)) as [px|e] eqn:Hget; [|congruence].
  rewrite HcW, HcH in Hfill.
  destruct (colorsMatch (getPixelColor px seedX seedY (width * dpr)) fillColor).
  { injection Hfill as <- <-. by exists c. }
  destruct (V1.loop _ _ _ _ fuel _) as [st1|] eqn:Hrun; [|congruence].
  assert (Hsave : forall cv, getImageData (putImageData (canvas c) cv) = Normal cv).
  { intros cv. unfold getImageData, putImageData in *. simpl.
    by destruct ((cwidth (canvas c) =? 0) || (cheight (canvas c) =? 0)). }
  unfold saveToHistory in *. simpl in *. rewrite Hsave in *.
  injection Hfill as <- <-.
  destruct (V1_whole_agree _ _ _ _ _ _ _ Hrun) as [_ Hagree]. simpl in Hagree.
  rewrite (Hagree 0 (width * height * dpr * dpr) fuel2) by lia.
  simpl. rewrite Hsave. by eexists.
Qed.

End FillV2.

(** * Push followed by undo *)

Section HistoryCompose.
Import History.
Context {A : Type}.
Variable MAX : Z.
Implicit Types (st : HistoryState A) (snap : A).

Lemma at_index_app_l (l k : list A) (i : Z) :
  0 <= i < Z.of_nat (length l) -> at_index (l ++ k) i = at_index l i.
Proof.
  intros Hi. unfold at_index. destruct (i <? 0) eqn:E; [lia|].
  apply lookup_app_l. lia.
Qed.

Lemma at_index_take (l : list A) (n : nat) (i : Z) :
  i < Z.of_nat n -> at_index (take n l) i = at_index l i.
Proof.
  intros Hi. unfold at_index. destruct (i <? 0) eqn:E; [done|].
  apply lookup_take_lt. lia.
Qed.

(** A push, the undo after it and the redo after that, from a cursor
    inside the history. *)
Lemma push_undo_redo st snap :
  2 <= MAX ->
  0 <= historyStep st < len st ->
  exists st' e,
    undo (saveToHistory MAX st snap) = Normal (Some (st', e)) /\
    current st = Some e /\
    historyStep st' = historyStep (saveToHistory MAX st snap) - 1 /\
    redo st' = Normal (Some (saveToHistory MAX st snap, snap)).
Proof.
  intros HM Hc.
  destruct (saveToHistory_tail MAX st snap) as [Ht Hcur]; [lia|lia|].
  unfold len in Hc.
  destruct (slice0_prefix (history st) (historyStep st + 1)) as [Hs Hl]; [lia|].
  destruct (lookup_lt_is_Some_2 (history st) (Z.to_nat (historyStep st)))
    as [e He]; [lia|].
  assert (Hcurrent : current st = Some e).
  { unfold current, at_index. destruct (historyStep st <? 0) eqn:E; [lia|]. done. }
  assert (Hprev : 0 < historyStep (saveToHistory MAX st snap) /\
                  at_index (history (saveToHistory MAX st snap))
                           (historyStep (saveToHistory MAX st snap) - 1) = Some e).
  { unfold saveToHistory.
    rewrite length_app, Nat2Z.inj_add, Hl. simpl length.
    destruct (historyStep st + 1 + Z.of_nat 1 >? MAX) eqn:Hev; simpl.
    - split; [lia|]. rewrite at_index_drop1 by lia.
      replace (historyStep st - 1 + 1) with (historyStep st) by lia.
      rewrite at_index_app_l by lia. rewrite Hs, at_index_take by lia.
      exact Hcurrent.
    - split; [lia|].
      replace (historyStep st + 1 - 1) with (historyStep st) by lia.
      rewrite at_index_app_l by lia. rewrite Hs, at_index_take by lia.
      exact Hcurrent. }
  destruct Hprev as [Hpos Hprev].
  set (st1 := saveToHistory MAX st snap) in *.
  exists (mkHistory (history st1) (historyStep st1 - 1)), e.
  split; [|split; [done|split; [done|]]].
  - unfold undo. destruct (historyStep st1 >? 0) eqn:Hg; [|lia].
    by rewrite Hprev.
  - unfold redo, len. simpl. unfold current in Hcur.
    unfold len in Ht.
    destruct (historyStep st1 - 1 <? Z.of_nat (length (history st1)) - 1) eqn:Hg;
      [|lia].
    replace (historyStep st1 - 1 + 1) with (historyStep st1) by lia.
    rewrite Hcur. by destruct st1.
Qed.

Lemma saveToHistory_Forall (P : A -> Prop) st snap :
  Forall P (history st) -> P snap ->
  Forall P (history (saveToHistory MAX st snap)).
Proof.
  intros Hall Hs. unfold saveToHistory, slice0.
  destruct (Z.of_nat (length _) >? MAX); simpl.
  - apply Forall_drop, Forall_app. split; [by apply Forall_take|by constructor].
  - apply Forall_app. split; [by apply Forall_take|by constructor].
Qed.

(** With room for at least two entries, in a non-empty history reached
    from the empty one an undo right after a push succeeds and restores
    the entry that was current before the push; the redo that follows
    gives back the pushed snapshot and the state after the push. *)
Theorem push_then_undo (ops : list (Op A)) snap :
  2 <= MAX ->
  let st := run MAX ops initial in
  history st <> [] ->
  exists st' e,
    undo (saveToHistory MAX st snap) = Normal (Some (st', e)) /\
    current st = Some e /\
    redo st' = Normal (Some (saveToHistory MAX st snap, snap)).
Proof.
  intros HM st Hne.
  destruct (run_inv MAX ops initial) as [_ Hc]; [lia|apply initial_inv; lia|].
  fold st in Hc.
  destruct (push_undo_redo st snap HM) as (st' & e & Hu & Hcur & _ & Hr).
  { destruct Hc as [[Hn _]|?]; [done|lia]. }
  by exists st', e.
Qed.

End HistoryCompose.

(** * The canvas and its history together *)

Section SurfaceFacts.
Import Colors Fill FillSpec Surface.
Implicit Types (c : Component) (p : Point) (px : list Z).

Lemma V1_loop_length W H targetColor fillColor fuel (st st' : LoopState) :
  V1.loop W H targetColor fillColor fuel st = Some st' ->
  length (pixels st') = length (pixels st).
Proof.
  revert st. induction fuel as [|fuel IH]; intros st; simpl;
    destruct (stack st) as [|[x y] rest] eqn:Hst; try congruence.
  intros Hl. rewrite (IH _ Hl).
  destruct (visit_cases W H targetColor fillColor st x y rest)
    as [[-> _]|(_ & _ & _ & ->)]; simpl; [done|].
  apply setPixelColor_length.
Qed.

Lemma synced_hist_inv c : synced c -> History.hist_inv 50 (hist c).
Proof. intros (_ & _ & Hc & Hl & _). split; [done|]. by right. Qed.

(** Putting new pixels of the size of the canvas on it and saving leaves
    the canvas and the history in step. *)
Lemma commit_synced c px (now : Z) :
  synced c ->
  length px = length (cdata (canvas c)) ->
  exists c',
    saveToHistory 50 now (mkComponent (putImageData (canvas c) px) (hist c))
      = Normal c' /\
    canvas c' = putImageData (canvas c) px /\
    hist c' = History.saveToHistory 50 (hist c) (mkDrawingState px now) /\
    synced c'.
Proof.
  intros Hs Hpx. pose proof (synced_hist_inv c Hs) as Hinv.
  destruct Hs as (HW & HH & Hc & Hl & _ & Hall).
  rewrite saveToHistory_ok by done.
  eexists. split; [done|]. split; [done|]. split; [done|].
  set (snap := mkDrawingState px now).
  destruct (saveToHistory_tail 50 (hist c) snap) as [Ht Hcur]; [lia|lia|].
  pose proof (saveToHistory_inv 50 (hist c) snap ltac:(lia) Hinv) as [Hl' _].
  unfold synced. simpl. fold snap.
  split; [done|]. split; [done|]. split.
  { split; [|lia]. unfold History.current, at_index in Hcur.
    destruct (History.historyStep (History.saveToHistory 50 (hist c) snap) <? 0)
      eqn:E; [done|lia]. }
  split; [done|]. split; [by exists snap|].
  apply saveToHistory_Forall; simpl; [|done].
  eapply Forall_impl; [exact Hall|]. simpl. intros e He. congruence.
Qed.

Lemma move_synced c (h : History.HistoryState DrawingState) (e : DrawingState) :
  synced c ->
  History.history h = History.history (hist c) ->
  History.current h = Some e ->
  synced (mkComponent (putImageData (canvas c) (imageData e)) h).
Proof.
  intros (HW & HH & Hc & Hl & _ & Hall) Hh Hcur.
  assert (Hin : e ∈ History.history (hist c)).
  { rewrite <- Hh. unfold History.current, at_index in Hcur.
    destruct (History.historyStep h <? 0); [done|].
    by apply list_elem_of_lookup_2 in Hcur. }
  assert (Hsize : length (imageData e) = length (cdata (canvas c))).
  { rewrite Forall_forall in Hall. by apply Hall. }
  unfold synced, History.len in *. simpl. rewrite Hh.
  split; [done|]. split; [done|]. split.
  { unfold History.current, at_index in Hcur.
    destruct (History.historyStep h <? 0) eqn:E; [done|].
    apply lookup_lt_Some in Hcur. rewrite Hh in Hcur. lia. }
  split; [done|]. split; [by exists e|].
  eapply Forall_impl; [exact Hall|]. simpl. intros e' He'. congruence.
Qed.

(** The canvas stays in step with its history: a fill, a clear, an undo
    and a redo each leave the canvas showing the entry under the cursor;
    clear, undo and redo always complete. *)
Theorem surface_stays_synced c :
  synced c ->
  (forall fuel now fillColor x y c' wr,
     V1.floodFillWith fuel now fillColor c x y = Some (Normal (c', wr)) ->
     synced c') /\
  (forall now, exists c',
     clearCanvas now c = Normal c' /\ synced c' /\
     cdata (canvas c') = replicate (length (cdata (canvas c))) 0) /\
  (exists c', undo c = Normal c' /\ synced c') /\
  (exists c', redo c = Normal c' /\ synced c').
Proof.
  intros Hs. pose proof Hs as (HW & HH & Hc & Hl & _ & Hall).
  split; [|split; [|split]].
  - intros fuel now fillColor x y c' wr.
    unfold V1.floodFillWith. rewrite getImageData_ok by done.
    destruct (colorsMatch _ fillColor); [by intros [= <- <-]|].
    destruct (V1.loop _ _ _ _ _ _) as [st|] eqn:Hrun; [|done].
    apply V1_loop_length in Hrun. simpl in Hrun.
    destruct (commit_synced c (pixels st) now Hs Hrun) as (c1 & -> & _ & _ & Hs1).
    by intros [= <- <-].
  - intros now. unfold clearCanvas.
    destruct (commit_synced c (replicate (length (cdata (canvas c))) 0) now Hs)
      as (c1 & Hsave & Hcv & _ & Hs1); [by rewrite length_replicate|].
    exists c1. split; [exact Hsave|]. split; [done|]. by rewrite Hcv.
  - unfold undo, History.undo.
    destruct (History.historyStep (hist c) >? 0) eqn:Hg; [|by exists c].
    destruct (at_index _ _) as [e|] eqn:He.
    + eexists. split; [done|]. by apply move_synced.
    + exfalso. unfold at_index, History.len in *.
      destruct (History.historyStep (hist c) - 1 <? 0) eqn:E; [lia|].
      apply lookup_ge_None in He. lia.
  - unfold redo, History.redo.
    destruct (History.historyStep (hist c) <? _) eqn:Hg; [|by exists c].
    destruct (at_index _ _) as [e|] eqn:He.
    + eexists. split; [done|]. by apply move_synced.
    + exfalso. unfold at_index, History.len in *.
      destruct (History.historyStep (hist c) + 1 <? 0) eqn:E; [lia|].
      apply lookup_ge_None in He. lia.
Qed.

(** Undo after a fill puts the canvas back as it was before the fill, and
    the redo after that brings the filled canvas back. *)
Theorem fill_then_undo_restores (fuel : nat) (now : Z) (fillColor : Color) c
    (seedX seedY : Z) :
  let W := cwidth (canvas c) in
  let H := cheight (canvas c) in
  let B := cdata (canvas c) in
  synced c ->
  Z.of_nat (length B) = 4 * W * H ->
  in_bounds W H (seedX, seedY) ->
  valid_color fillColor ->
  colorsMatch (color_at W B (seedX, seedY)) fillColor = false ->
  4 * (W * H) + 1 <= Z.of_nat fuel ->
  exists c1 wr c2,
    V1.floodFillWith fuel now fillColor c seedX seedY = Some (Normal (c1, wr)) /\
    undo c1 = Normal c2 /\
    canvas c2 = canvas c /\
    redo c2 = Normal c1.
Proof.
  intros W H B Hs Hlen Hseed Hvalid Hdiff Hfuel.
  destruct (V1_floodFillWith_runs fuel now fillColor c seedX seedY
              Hlen Hseed Hvalid Hdiff Hfuel) as (st' & Hcall & _).
  pose proof Hs as (_ & _ & Hc & _ & (e0 & He0 & Himg) & _).
  set (snap := mkDrawingState (pixels st') now) in *.
  destruct (push_undo_redo 50 (hist c) snap ltac:(lia) Hc)
    as (h' & e & Hu & Hcur & _ & Hr).
  assert (e = e0) as -> by congruence.
  eexists _, _, _. split; [exact Hcall|].
  unfold undo, redo. simpl. rewrite Hu. split; [done|]. simpl.
  rewrite Hr. split.
  - rewrite Himg. unfold putImageData. simpl. subst W H B. by destruct (canvas c).
  - done.
Qed.

(** After [clearCanvas], a fill from any seed in bounds with any colour
    string recolours the whole canvas with [hexToRgb(color)], in exactly
    [W * H] writes: a cleared pixel is transparent and never matches the
    opaque fill colour. *)
Theorem clear_then_fill_covers_canvas (fuel : nat) (now now' : Z)
    (color : string) c (seedX seedY : Z) :
  let W := cwidth (canvas c) in
  let H := cheight (canvas c) in
  synced c ->
  Z.of_nat (length (cdata (canvas c))) = 4 * W * H ->
  in_bounds W H (seedX, seedY) ->
  4 * (W * H) + 1 <= Z.of_nat fuel ->
  exists c1 c2 wr,
    clearCanvas now c = Normal c1 /\
    V1.floodFill fuel now' color c1 seedX seedY = Some (Normal (c2, wr)) /\
    (forall p, in_bounds W H p ->
       color_at W (cdata (canvas c2)) p = hexToRgb color) /\
    Z.of_nat (length wr) = W * H.
Proof.
  intros W H Hs Hlen Hseed Hfuel.
  destruct (commit_synced c (replicate (length (cdata (canvas c))) 0) now Hs)
    as (c1 & Hsave & Hcv & _ & _); [by rewrite length_replicate|].
  exists c1. destruct c1 as [cv1 h1]. simpl in Hcv. subst cv1.
  set (c1 := mkComponent
               (putImageData (canvas c) (replicate (length (cdata (canvas c))) 0))
               h1) in *.
  assert (Hzero : forall p, in_bounds W H p ->
            color_at W (cdata (canvas c1)) p
            = mkColor (Some 0) (Some 0) (Some 0) (Some 0)).
  { intros [x y] Hp. simpl.
    destruct (index_in_range W H x y Hp) as [Hlo Hhi].
    unfold color_at, getPixelColor, at_index. simpl.
    repeat match goal with
           | |- context [?i <? 0] => destruct (i <? 0) eqn:?; [lia|]
           end.
    rewrite !lookup_replicate_2 by lia. done. }
  destruct (hexToRgb_valid color) as [Hvalid Halpha].
  assert (Hdiff : colorsMatch (color_at W (cdata (canvas c1)) (seedX, seedY))
                              (hexToRgb color) = false).
  { apply colorsMatch_neq. rewrite Hzero by done. intros Heq.
    rewrite <- Heq in Halpha. simpl in Halpha. congruence. }
  assert (Hlen1 : Z.of_nat (length (cdata (canvas c1))) = 4 * W * H).
  { simpl. by rewrite length_replicate. }
  destruct (V1_floodFillWith_runs fuel now' (hexToRgb color) c1 seedX seedY
              Hlen1 Hseed Hvalid Hdiff Hfuel)
    as (st' & Hcall & Hl & Hin & Hout & Hwr & Hnd).
  assert (Hall : forall p, in_bounds W H p ->
            region W H (cdata (canvas c1)) (seedX, seedY) p).
  { apply uniform_region; [done|]. intros p Hp. by rewrite !Hzero. }
  eexists _, _. split; [exact Hsave|]. split; [exact Hcall|]. simpl. split.
  - intros p Hp. apply Hin. by apply Hall.
  - apply all_coords_length; [destruct Hseed; simpl in *; lia ..|done|].
    intros p. split.
    + intros Hp. eapply region_in_bounds. by apply Hwr.
    + intros Hp. apply Hwr. by apply Hall.
Qed.

End SurfaceFacts.

(** * Recent colours *)

Section RecentFacts.
Import Recent.
Implicit Types (c x : string) (prev : list string).

Lemma filter_all (P : string -> Prop) `{forall x, Decision (P x)} prev :
  (forall x, x ∈ prev -> P x) -> filter P prev = prev.
Proof.
  induction prev as [|x prev IH]; intros Hall; [done|].
  rewrite filter_cons. destruct (decide (P x)) as [_|Hn].
  - f_equal. apply IH. intros y Hy. apply Hall. by apply list_elem_of_further.
  - exfalso. apply Hn, Hall. apply list_elem_of_here.
Qed.

Lemma add_head c prev : head (addToRecentColors c prev) = Some c.
Proof.
  unfold addToRecentColors. case_bool_decide as Hh; [done|]. done.
Qed.

Lemma add_elem c prev x :
  x ∈ addToRecentColors c prev -> x = c \/ x ∈ prev.
Proof.
  unfold addToRecentColors. case_bool_decide as Hh; [by right|].
  intros Hx. apply subseteq_take in Hx.
  apply elem_of_cons in Hx as [->|Hx]; [by left|].
  apply list_elem_of_filter in Hx as [_ Hx]. by right.
Qed.

Lemma add_NoDup c prev : NoDup prev -> NoDup (addToRecentColors c prev).
Proof.
  intros Hnd. unfold addToRecentColors. case_bool_decide as Hh; [done|].
  eapply sublist_NoDup; [|apply sublist_take].
  apply NoDup_cons. split.
  - intros Hc. apply list_elem_of_filter in Hc as [Hc _]. done.
  - by apply NoDup_filter.
Qed.

Lemma add_length c prev :
  (length prev <= 8 -> length (addToRecentColors c prev) <= 8)%nat.
Proof.
  intros Hl. unfold addToRecentColors. case_bool_decide as Hh; [done|].
  rewrite length_take. lia.
Qed.

(** The list that [addToRecentColors] keeps, whatever colours are picked
    and in whatever order: no colour twice, at most eight colours, only
    colours that were picked, and the colour picked last in front. *)
Theorem recent_colours_invariant (cs : list string) :
  NoDup (picked cs) /\
  (length (picked cs) <= 8)%nat /\
  (forall x, x ∈ picked cs -> x ∈ cs) /\
  head (picked cs) = last cs.
Proof.
  unfold picked. induction cs as [|c cs IH] using rev_ind.
  - simpl. split; [constructor|]. split; [lia|]. split; [done|done].
  - destruct IH as (Hnd & Hl & Hin & _).
    rewrite fold_left_app. simpl.
    split; [by apply add_NoDup|]. split; [by apply add_length|]. split.
    + intros x Hx. apply add_elem in Hx as [->|Hx].
      * apply elem_of_app. right. by apply list_elem_of_singleton.
      * apply elem_of_app. left. by apply Hin.
    + by rewrite add_head, last_snoc.
Qed.

(** Picking again a colour that is in the list moves it to the front and
    loses none of the others; picking the colour in front changes
    nothing. *)
Theorem repicked_colour_moves_to_front c prev :
  NoDup prev -> (length prev <= 8)%nat -> c ∈ prev ->
  addToRecentColors c prev = c :: filter (λ x, x ≠ c) prev /\
  addToRecentColors c prev ≡ₚ prev /\
  addToRecentColors c (addToRecentColors c prev) = addToRecentColors c prev.
Proof.
  intros Hnd Hl Hc.
  assert (Hshape : addToRecentColors c prev = c :: filter (λ x, x ≠ c) prev).
  { unfold addToRecentColors. case_bool_decide as Hh.
    - destruct prev as [|c0 prev']; [done|]. simpl in Hh. injection Hh as ->.
      apply NoDup_cons in Hnd as [Hc0 _].
      rewrite filter_cons. destruct (decide (c ≠ c)) as [?|_]; [done|].
      f_equal. symmetry. apply filter_all. intros x Hx ->. done.
    - apply take_ge. simpl.
      pose proof (length_filter_lt (λ x, x ≠ c) prev c Hc) as Hlt.
      assert (¬ c ≠ c) as Hcc by (intros Hcc; done).
      specialize (Hlt Hcc). lia. }
  split; [done|]. split.
  - rewrite Hshape. apply NoDup_Permutation; [|done|].
    + apply NoDup_cons. split; [|by apply NoDup_filter].
      intros Hin. by apply list_elem_of_filter in Hin as [? _].
    + intros x. rewrite elem_of_cons, list_elem_of_filter. split.
      * intros [->|[_ Hx]]; done.
      * intros Hx. destruct (decide (x = c)); [by left|by right].
  - unfold addToRecentColors at 1. rewrite add_head.
    case_bool_decide; done.
Qed.

(** Picking a colour that is not in a full list of eight puts it in
    front and drops the last colour only. *)
Theorem new_colour_drops_the_oldest c prev :
  length prev = 8%nat -> c ∉ prev ->
  addToRecentColors c prev = c :: take 7 prev.
Proof.
  intros Hl Hc. unfold addToRecentColors. case_bool_decide as Hh.
  - exfalso. apply Hc. destruct prev as [|c0 prev']; [done|].
    simpl in Hh. injection Hh as ->. apply list_elem_of_here.
  - rewrite filter_all by (intros x Hx ->; done).
    simpl. done.
Qed.

End RecentFacts.

(** * Letter case and the leading [#] of hexadecimal colours *)

Section HexFacts.
Import Colors HexCase.

Lemma lower_char (c : ascii) :
  is_hex_digit (lower c) = is_hex_digit c /\
  Ascii.eqb (lower c) "#" = Ascii.eqb c "#" /\
  (is_hex_digit c = true -> digit_value (lower c) = digit_value c).
Proof.
  destruct c as [[] [] [] [] [] [] [] []]; vm_compute;
    (split; [reflexivity|split; [reflexivity|]]);
    first [intros _; reflexivity | intros Hf; discriminate Hf].
Qed.

Lemma match_groups_lower (t : string) :
  match_groups (lower_string t) =
  match match_groups t with
  | Some (g1, g2, g3) => Some (lower_string g1, lower_string g2, lower_string g3)
  | None => None
  end.
Proof.
  destruct t as [|c1 [|c2 [|c3 [|c4 [|c5 [|c6 [|c7 t]]]]]]]; try done.
  cbn [lower_string]. unfold match_groups. cbn [forallb].
  rewrite !(proj1 (lower_char _)).
  by destruct (is_hex_digit c1 && _).
Qed.

Lemma match_groups_parse_lower (t g1 g2 g3 : string) :
  match_groups t = Some (g1, g2, g3) ->
  parseInt16 (lower_string g1) = parseInt16 g1 /\
  parseInt16 (lower_string g2) = parseInt16 g2 /\
  parseInt16 (lower_string g3) = parseInt16 g3.
Proof.
  destruct t as [|c1 [|c2 [|c3 [|c4 [|c5 [|c6 [|c7 t]]]]]]]; try done.
  unfold match_groups.
  destruct (forallb is_hex_digit [c1; c2; c3; c4; c5; c6]) eqn:Hall; [|done].
  intros [= <- <- <-]. simpl in Hall. rewrite !andb_true_iff in Hall.
  destruct Hall as (H1 & H2 & H3 & H4 & H5 & H6 & _).
  unfold parseInt16. simpl.
  rewrite (proj2 (proj2 (lower_char c1)) H1), (proj2 (proj2 (lower_char c2)) H2),
    (proj2 (proj2 (lower_char c3)) H3), (proj2 (proj2 (lower_char c4)) H4),
    (proj2 (proj2 (lower_char c5)) H5), (proj2 (proj2 (lower_char c6)) H6).
  done.
Qed.

(** The colour parsed from the groups of a string and of its lower-case
    form. *)
Lemma groups_colour_lower (t : string) :
  match match_groups (lower_string t) with
  | Some (g1, g2, g3) =>
      mkColor (Some (parseInt16 g1)) (Some (parseInt16 g2))
              (Some (parseInt16 g3)) (Some 255)
  | None => black
  end =
  match match_groups t with
  | Some (g1, g2, g3) =>
      mkColor (Some (parseInt16 g1)) (Some (parseInt16 g2))
              (Some (parseInt16 g3)) (Some 255)
  | None => black
  end.
Proof.
  rewrite match_groups_lower.
  destruct (match_groups t) as [[[g1 g2] g3]|] eqn:Hm; [|done].
  destruct (match_groups_parse_lower t g1 g2 g3 Hm) as (-> & -> & ->). done.
Qed.

(** [hexToRgb] does not look at the case of the letters. *)
Theorem hexToRgb_ignores_case (s : string) :
  hexToRgb (lower_string s) = hexToRgb s.
Proof.
  destruct s as [|c rest]; [done|]. cbn [lower_string].
  unfold hexToRgb, regex_exec.
  rewrite (proj1 (proj2 (lower_char c))).
  destruct (Ascii.eqb c "#") eqn:Hc.
  - apply Ascii.eqb_eq in Hc. subst c.
    change (lower "#") with "#"%char. rewrite !match_groups_hash.
    pose proof (groups_colour_lower rest) as Hrest.
    destruct (match_groups (lower_string rest)) as [[[? ?] ?]|],
             (match_groups rest) as [[[? ?] ?]|]; exact Hrest.
  - exact (groups_colour_lower (String c rest)).
Qed.

(** The leading [#] is optional: a string that does not start with [#]
    parses the same with and without one in front. *)
Theorem hexToRgb_hash_optional (s : string) :
  (forall rest, s <> String "#" rest) ->
  hexToRgb (String "#" s) = hexToRgb s.
Proof.
  intros Hno. unfold hexToRgb, regex_exec.
  change (Ascii.eqb "#" "#") with true. cbv iota.
  rewrite match_groups_hash.
  destruct s as [|c rest].
  - done.
  - destruct (Ascii.eqb c "#") eqn:Hc.
    + apply Ascii.eqb_eq in Hc. subst c. by destruct (Hno rest).
    + by destruct (match_groups (String c rest)) as [[[? ?] ?]|].
Qed.

(** [hexToRgb] always answers with a colour of four 8-bit channels that
    is fully opaque. *)
Theorem hexToRgb_opaque_8bit (s : string) :
  valid_color (hexToRgb s) /\ a (hexToRgb s) = Some 255.
Proof. apply hexToRgb_valid. Qed.

End HexFacts.

(** * The keyboard shortcut for undo *)

Section ShortcutFacts.
Import History Shortcuts.
Context {A : Type}.
Variable MAX : Z.
Implicit Types (l : Listening A) (snap : A).

Lemma push_each_snoc (snaps : list A) snap l :
  push_each MAX (snaps ++ [snap]) l = push MAX (push_each MAX snaps l) snap.
Proof. unfold push_each. by rewrite fold_left_app. Qed.

(** A push with the cursor on the last entry: with room left the cursor
    moves and the handler is registered again; on a full history the
    cursor stays and the handler is kept. *)
Lemma push_at_tail (h cap : list A) snap :
  push MAX (mkListening (mkHistory h (Z.of_nat (length h) - 1)) cap) snap =
  if Z.of_nat (length h) + 1 >? MAX
  then mkListening (mkHistory (drop 1 (h ++ [snap])) (Z.of_nat (length h) - 1)) cap
  else mkListening (mkHistory (h ++ [snap]) (Z.of_nat (length h) - 1 + 1))
                   (h ++ [snap]).
Proof.
  unfold push, rendered. cbn [state captured].
  rewrite (saveToHistory_at_tail MAX (mkHistory h _) snap) by done.
  unfold len. cbn [history historyStep].
  destruct (Z.of_nat (length h) + 1 >? MAX) eqn:Hev; cbn [history historyStep].
  - by rewrite bool_decide_eq_true_2.
  - by rewrite bool_decide_eq_false_2 by lia.
Qed.

(** While the history is not full every push moves the cursor, so the
    handler is registered again and holds the current history. *)
Lemma push_each_captured (snaps : list A) :
  Z.of_nat (length snaps) <= MAX ->
  push_each MAX snaps mounted =
  mkListening (mkHistory snaps (Z.of_nat (length snaps) - 1)) snaps.
Proof.
  induction snaps as [|s snaps IH] using rev_ind; intros Hl.
  - done.
  - rewrite length_app in Hl. simpl in Hl.
    rewrite push_each_snoc, IH by lia. rewrite push_at_tail.
    destruct (Z.of_nat (length snaps) + 1 >? MAX) eqn:Hev; [lia|].
    do 2 f_equal. rewrite length_app. simpl. lia.
Qed.

(** Until the history is full, Ctrl+Z does what the Undo button does. *)
Theorem key_undo_is_click_undo_until_full (snaps : list A) :
  Z.of_nat (length snaps) <= MAX ->
  key_undo (push_each MAX snaps mounted) = click_undo (push_each MAX snaps mounted).
Proof.
  intros Hl. rewrite (push_each_captured snaps Hl).
  unfold key_undo, click_undo, undo. cbn [state captured history historyStep].
  destruct (_ >? 0); [|done]. by destruct (at_index _ _).
Qed.

(** Once a push has evicted the oldest entry the handler is out of date:
    after [MAX] pushes and one more, the Undo button restores the last of
    the [MAX] snapshots (the image before the latest edit), while Ctrl+Z
    restores the one before it; both move the cursor back by one. *)
Theorem key_undo_after_eviction (snaps : list A) snap :
  2 <= MAX ->
  Z.of_nat (length snaps) = MAX ->
  let l := push MAX (push_each MAX snaps mounted) snap in
  exists l1 l2 e_last e_before,
    at_index snaps (MAX - 1) = Some e_last /\
    at_index snaps (MAX - 2) = Some e_before /\
    click_undo l = Normal (Some (l1, e_last)) /\
    key_undo l = Normal (Some (l2, e_before)) /\
    state l1 = state l2 /\
    historyStep (state l1) = MAX - 2.
Proof.
  intros HM Hlen l.
  destruct (lookup_lt_is_Some_2 snaps (Z.to_nat (MAX - 1))) as [e1 He1]; [lia|].
  destruct (lookup_lt_is_Some_2 snaps (Z.to_nat (MAX - 2))) as [e2 He2]; [lia|].
  assert (Hl : l = mkListening (mkHistory (drop 1 (snaps ++ [snap])) (MAX - 1)) snaps).
  { subst l. rewrite push_each_captured by lia. rewrite push_at_tail.
    destruct (Z.of_nat (length snaps) + 1 >? MAX) eqn:Hev; [|lia].
    do 2 f_equal. lia. }
  rewrite Hl. unfold click_undo, key_undo, undo.
  cbn [state captured history historyStep].
  destruct (MAX - 1 >? 0) eqn:Hg; [|lia].
  replace (MAX - 1 - 1) with (MAX - 2) by lia.
  assert (H1 : at_index snaps (MAX - 1) = Some e1).
  { unfold at_index. destruct (MAX - 1 <? 0) eqn:E; [lia|done]. }
  assert (H2 : at_index snaps (MAX - 2) = Some e2).
  { unfold at_index. destruct (MAX - 2 <? 0) eqn:E; [lia|done]. }
  assert (H3 : at_index (drop 1 (snaps ++ [snap])) (MAX - 2) = Some e1).
  { unfold at_index. destruct (MAX - 2 <? 0) eqn:E; [lia|].
    rewrite lookup_drop, lookup_app_l by lia.
    rewrite <- He1. f_equal. lia. }
  rewrite H2, H3.
  eexists _, _, e1, e2. split; [done|]. split; [done|].
  split; [done|]. split; [done|]. done.
Qed.

End ShortcutFacts.

(** * What the iteration cap of the second variant costs *)

Section CapFacts.
Import Colors Fill FillSpec.
Implicit Types (p q : Point).

(** An iteration writes at most one pixel. *)
Lemma whole_loop_writes_le W H targetColor fillColor maxIterations fuel
    (st st' : V2.CountedState) :
  WholeRatio.loop W H targetColor fillColor maxIterations fuel st = Some st' ->
  Z.of_nat (length (written (V2.loop_state st')))
    - Z.of_nat (length (written (V2.loop_state st)))
  <= V2.iterations st' - V2.iterations st.
Proof.
  revert st. induction fuel as [|fuel IH]; intros st; simpl;
    destruct (stack (V2.loop_state st)) as [|[x y] rest] eqn:Hst;
    try destruct (V2.iterations st <? maxIterations);
    try (intros [= <-]; lia); try done.
  intros Hl. pose proof (IH _ Hl) as Hle.
  cbn [V2.loop_state V2.iterations] in Hle.
  destruct (visit_cases W H targetColor fillColor (V2.loop_state st) x y rest)
    as [[Heq _]|(_ & _ & _ & Heq)]; rewrite Heq in Hle; simpl in Hle; lia.
Qed.

(** One iteration of the counted loop. *)
Lemma whole_loop_step W H targetColor fillColor maxIterations fuel
    (ls : LoopState) (it : Z) p rest :
  stack ls = p :: rest -> it < maxIterations ->
  WholeRatio.loop W H targetColor fillColor maxIterations (S fuel) (V2.mkCounted ls it)
  = WholeRatio.loop W H targetColor fillColor maxIterations fuel
            (V2.mkCounted (visit W H targetColor fillColor ls p rest) (it + 1)).
Proof.
  intros Hst Hlt. simpl. rewrite Hst.
  destruct (it <? maxIterations) eqn:E; [done|lia].
Qed.

(** From a coordinate [(x, j)] on top of the stack, with the column above
    it up to row 0 unvisited and of the target colour, the loop writes
    the [j + 1] pixels of that column segment going up and then skips
    [(x, -1)]: [j + 2] iterations for [j + 1] writes. *)
Lemma whole_climb W H (targetColor fillColor : Color) maxIterations (x : Z) (j : nat) :
  forall (ls : LoopState) (it : Z) (rest : list Point),
    stack ls = (x, Z.of_nat j) :: rest ->
    0 <= x < W -> Z.of_nat j < H ->
    (forall i, 0 <= i <= Z.of_nat j ->
       ((x, i) ∉ visited ls) /\ color_at W (pixels ls) (x, i) = targetColor) ->
    it + Z.of_nat j + 2 <= maxIterations ->
    exists ls2,
      length (written ls2) = (length (written ls) + j + 1)%nat /\
      forall fuel,
        WholeRatio.loop W H targetColor fillColor maxIterations (S (S j) + fuel)
                (V2.mkCounted ls it)
        = WholeRatio.loop W H targetColor fillColor maxIterations fuel
                  (V2.mkCounted ls2 (it + Z.of_nat j + 2)).
Proof.
  induction j as [|j IH]; intros ls it rest Hst Hx Hj Hcol Hit.
  - change (Z.of_nat 0) with 0 in *.
    destruct (Hcol 0) as [Hv0 Hc0]; [lia|].
    destruct (visit_cases W H targetColor fillColor ls x 0 rest)
      as [[_ [Hv|[Hout|Hne]]]|(_ & _ & _ & Hw)];
      [done | exfalso; apply Hout; unfold in_bounds; simpl; lia | done |].
    set (ls1 := visit W H targetColor fillColor ls (x, 0) rest) in *.
    set (rest1 := (x, 0 + 1) :: (x - 1, 0) :: (x + 1, 0) :: rest) in *.
    assert (Hst1 : stack ls1 = (x, 0 - 1) :: rest1) by by rewrite Hw.
    destruct (visit_cases W H targetColor fillColor ls1 x (0 - 1) rest1)
      as [[Hs _]|(_ & Hin & _)];
      [|exfalso; unfold in_bounds in Hin; simpl in Hin; lia].
    exists (visit W H targetColor fillColor ls1 (x, 0 - 1) rest1). split.
    + rewrite Hs. simpl. rewrite Hw. simpl. lia.
    + intros fuel. change (2 + fuel)%nat with (S (S fuel)).
      rewrite (whole_loop_step _ _ _ _ _ _ _ _ _ _ Hst) by lia. fold ls1.
      rewrite (whole_loop_step _ _ _ _ _ _ _ _ _ _ Hst1) by lia.
      do 2 f_equal. lia.
  - destruct (Hcol (Z.of_nat (S j))) as [Hv0 Hc0]; [lia|].
    destruct (visit_cases W H targetColor fillColor ls x (Z.of_nat (S j)) rest)
      as [[_ [Hv|[Hout|Hne]]]|(_ & _ & _ & Hw)];
      [done | exfalso; apply Hout; unfold in_bounds; simpl; lia | done |].
    set (ls1 := visit W H targetColor fillColor ls (x, Z.of_nat (S j)) rest) in *.
    destruct (IH ls1 (it + 1)
                ((x, Z.of_nat (S j) + 1) :: (x - 1, Z.of_nat (S j))
                 :: (x + 1, Z.of_nat (S j)) :: rest))
      as (ls2 & Hlen2 & Hrun2).
    + rewrite Hw. simpl. do 2 f_equal. lia.
    + done.
    + lia.
    + intros i Hi. destruct (Hcol i) as [Hvi Hci]; [lia|].
      rewrite Hw. simpl. split.
      * intros [Heq%elem_of_singleton|Hin]%elem_of_union; [|done].
        injection Heq as Heq. lia.
      * rewrite <- Hci. unfold color_at. simpl.
        apply getPixelColor_set_other.
        apply (index_apart W H x (Z.of_nat (S j)) x i);
          [unfold in_bounds; simpl; lia | unfold in_bounds; simpl; lia |].
        intros [= Heq]. lia.
    + lia.
    + exists ls2. split.
      * rewrite Hlen2, Hw. simpl. lia.
      * intros fuel. change (S (S (S j)) + fuel)%nat with (S (S (S j) + fuel)).
        rewrite (whole_loop_step _ _ _ _ _ _ _ _ _ _ Hst) by lia. fold ls1.
        rewrite (Hrun2 fuel). do 2 f_equal. lia.
Qed.

(** At a whole device pixel ratio, on a one-colour canvas at least two
    pixels wide the second variant never fills the whole canvas: the
    first skipped neighbour already uses up an iteration, so fewer than
    [W * H] pixels are written and some pixel keeps its colour. *)
Theorem V2_leaves_wide_uniform_canvas_unfilled (width height dpr : Z)
    (fuel : nat) (now : Z) (fillColor : Color) (c : Component)
    (seedX seedY : Z) :
  let W := width * dpr in
  let H := height * dpr in
  let B := cdata (canvas c) in
  cwidth (canvas c) = W -> cheight (canvas c) = H ->
  Z.of_nat (length B) = 4 * W * H ->
  in_bounds W H (seedX, seedY) ->
  2 <= W ->
  valid_color fillColor ->
  (forall p, in_bounds W H p -> color_at W B p = color_at W B (seedX, seedY)) ->
  colorsMatch (color_at W B (seedX, seedY)) fillColor = false ->
  width * height * dpr * dpr <= Z.of_nat fuel ->
  exists c' wr,
    V2.floodFillWith width height (Qc_of_Z dpr) fuel now fillColor c seedX seedY
      = Some (Normal (c', wr)) /\
    Z.of_nat (length wr) < W * H /\
    exists p, in_bounds W H p /\
              color_at W (cdata (canvas c')) p = color_at W B p /\
              color_at W (cdata (canvas c')) p <> fillColor.
Proof.
  intros W H B HcW HcH Hlen Hseed HW2 Hvalid Huni Hdiff Hfuel.
  assert (HW : cwidth (canvas c) <> 0) by lia.
  assert (HH : cheight (canvas c) <> 0) by (destruct Hseed; simpl in *; lia).
  assert (Hmax : width * height * dpr * dpr = W * H) by (subst W H; lia).
  set (target := color_at W B (seedX, seedY)) in *.
  set (start := mkLoop B [(seedX, seedY)] ∅ []).
  destruct Hseed as [Hsx Hsy]. simpl in Hsx, Hsy.
  assert (Hclimb := whole_climb W H target fillColor (W * H) seedX (Z.to_nat seedY)
                      start 0 []).
  rewrite Z2Nat.id in Hclimb by lia.
  destruct Hclimb as (ls2 & Hlen2 & Hrun2); [done|done|lia| |nia|].
  { intros i Hi. split; [apply not_elem_of_empty|].
    apply Huni. unfold in_bounds. simpl. lia. }
  assert (Hsplit : fuel = (S (S (Z.to_nat seedY)) + (fuel - S (S (Z.to_nat seedY))))%nat)
    by nia.
  destruct (whole_loop_capped W H target fillColor (W * H)
              (fuel - S (S (Z.to_nat seedY)))
              (V2.mkCounted ls2 (0 + seedY + 2)))
    as (st' & Hrun & _ & Hhi & _); [simpl; lia|].
  pose proof (whole_loop_writes_le _ _ _ _ _ _ _ _ Hrun) as Hle. simpl in Hle, Hhi.
  assert (Hrun0 : WholeRatio.loop W H target fillColor (W * H) fuel (V2.mkCounted start 0)
                  = Some st').
  { rewrite Hsplit, Hrun2. exact Hrun. }
  assert (Hcount : Z.of_nat (length (written (V2.loop_state st'))) < W * H).
  { assert (seedY + 2 <= W * H) by nia.
    subst start. simpl in Hlen2. lia. }
  pose proof (whole_loop_fill_inv W H B (seedX, seedY) fillColor _ fuel
                (V2.mkCounted start 0) st' Hlen (conj Hsx Hsy) Hvalid
                (start_inv W H B (seedX, seedY) fillColor) Hrun0) as Hi.
  pose proof (whole_loop_write_inv W H _ fillColor _ fuel (V2.mkCounted start 0) st'
                (start_write_inv W H B [(seedX, seedY)]) Hrun0) as Hw.
  rewrite V2_floodFillWith_whole by (subst W; nia).
  unfold WholeRatio.floodFillWith. rewrite getImageData_ok by done.
  fold W H B. rewrite Hmax.
  unfold target, color_at in Hdiff, Hrun0. simpl in Hdiff, Hrun0.
  rewrite Hdiff. subst start. rewrite Hrun0.
  rewrite saveToHistory_ok by done.
  eexists _, _. split; [done|]. simpl. split; [done|].
  (* a coordinate of the buffer that was not written *)
  destruct (decide (Forall (λ p, p ∈ written (V2.loop_state st')) (coords W H)))
    as [Hall|Hnot].
  { exfalso. rewrite Forall_forall in Hall.
    pose proof (NoDup_submseteq _ _ (coords_NoDup W H) Hall) as Hsub.
    apply submseteq_length in Hsub.
    pose proof (coords_length W H ltac:(lia) ltac:(lia)). lia. }
  apply not_Forall_Exists in Hnot; [|intros q; apply _].
  apply Exists_exists in Hnot as (p & Hp & Hnw).
  apply elem_of_coords in Hp. simpl in Hnw.
  assert (Hnv : p ∉ visited (V2.loop_state st')).
  { intros Hv. apply Hnw. by apply (wi_visited _ _ _ Hw). }
  pose proof (fi_kept _ _ _ _ _ _ Hi p Hp Hnv) as Hkept.
  exists p. split; [done|]. split; [done|].
  rewrite Hkept, (Huni p Hp). by apply colorsMatch_neq.
Qed.

End CapFacts.

(** * A device pixel ratio that is not whole *)

Section FractionalRatio.
Import Colors Fill FillSpec Samples MoreSamples.



End FractionalRatio.

(** * The further properties on concrete inputs *)

Section MoreExamples.
Import Colors Fill FillSpec Recent Samples MoreSamples.

Lemma blank_2x1_uniform (p : Point) :
  in_bounds (2 * 1) (1 * 1) p ->
  color_at (2 * 1) (cdata (canvas (blank 2 1))) p
  = color_at (2 * 1) (cdata (canvas (blank 2 1))) (0, 0).
Proof.
  destruct p as [x y]. unfold in_bounds. simpl. intros [Hx Hy].
  assert (y = 0) as -> by lia.
  assert (x = 0 \/ x = 1) as [-> | ->] by lia; reflexivity.
Qed.

Lemma fresh1x1_synced : Surface.synced fresh1x1.
Proof.
  unfold Surface.synced. simpl. split; [done|]. split; [done|].
  split; [by_eval|]. split; [by_eval|]. split.
  - eexists. split; reflexivity.
  - repeat constructor.
Qed.

(** Five pushes into a history of capacity 3. *)
Lemma history_keeps_most_recent_witness :
  History.history (History.push_all 3 [1; 2; 3; 4; 5] History.initial)
    = drop (5 - Z.to_nat 3) [1; 2; 3; 4; 5] /\
  (1 <= 3 ->
   History.current (History.push_all 3 [1; 2; 3; 4; 5] History.initial)
     = last [1; 2; 3; 4; 5]).
Proof. apply (history_keeps_most_recent 3 [1; 2; 3; 4; 5]). lia. Defined.

(** A push, an undo and a redo. *)
Lemma reachable_history_is_safe_witness :
  let st := History.run 3 [History.Push 1; History.Undo; History.Redo]
                        History.initial in
  (exists r, History.undo st = Normal r) /\
  (exists r, History.redo st = Normal r) /\
  (History.history st <> [] -> 0 <= History.historyStep st < History.len st) /\
  History.len st <= 3.
Proof.
  apply (reachable_history_is_safe 3 [History.Push 1; History.Undo; History.Redo]).
  lia.
Defined.

(** Two undos and two redos after three pushes. *)
Lemma undos_then_redos_witness :
  let st := History.run 50 [History.Push 1; History.Push 2; History.Push 3]
                        History.initial in
  History.run 50 (replicate 2 History.Redo)
              (History.run 50 (replicate 2 History.Undo) st) = st.
Proof.
  apply (undos_then_redos 50 [History.Push 1; History.Push 2; History.Push 3] 2);
    [lia|by_eval].
Defined.

(** A second push and its undo. *)
Lemma push_then_undo_witness :
  let st := History.run 50 [History.Push 1] History.initial in
  exists st' e,
    History.undo (History.saveToHistory 50 st 2) = Normal (Some (st', e)) /\
    History.current st = Some e /\
    History.redo st' = Normal (Some (History.saveToHistory 50 st 2, 2)).
Proof. apply (push_then_undo 50 [History.Push 1] 2); [lia|by_eval]. Defined.

(** Writing the second pixel of a 2 by 1 buffer. *)
Lemma setPixelColor_round_trip_witness :
  getPixelColor (setPixelColor (white_pixels 2) 1 0 2 black) 1 0 2 = black /\
  length (setPixelColor (white_pixels 2) 1 0 2 black) = length (white_pixels 2) /\
  (forall x' y', in_bounds 2 1 (x', y') -> (x', y') <> (1, 0) ->
     getPixelColor (setPixelColor (white_pixels 2) 1 0 2 black) x' y' 2
     = getPixelColor (white_pixels 2) x' y' 2).
Proof.
  apply (setPixelColor_round_trip (white_pixels 2) 2 1 1 0 black).
  - reflexivity.
  - unfold in_bounds. simpl. lia.
  - unfold valid_color. simpl. lia.
Defined.

(** The 2 by 1 white canvas filled with black. *)
Lemma fill_uniform_canvas_witness :
  exists c' wr,
    V1.floodFillWith 9 0 black (blank 2 1) 0 0 = Some (Normal (c', wr)) /\
    (forall p, in_bounds 2 1 p -> color_at 2 (cdata (canvas c')) p = black) /\
    Z.of_nat (length wr) = 2 * 1.
Proof.
  apply (fill_uniform_canvas 9 0 black (blank 2 1) 0 0).
  - reflexivity.
  - unfold in_bounds. simpl. lia.
  - unfold valid_color. simpl. lia.
  - exact blank_2x1_uniform.
  - reflexivity.
  - by_eval.
Defined.

Lemma fill_twice_is_fill_once_witness :
  exists c' wr,
    V1.floodFillWith 9 0 black (blank 2 1) 0 0 = Some (Normal (c', wr)) /\
    V1.floodFillWith 0 1 black c' 0 0 = Some (Normal (c', [])).
Proof.
  apply (fill_twice_is_fill_once 9 0 0 1 black (blank 2 1) 0 0).
  - reflexivity.
  - unfold in_bounds. simpl. lia.
  - unfold valid_color. simpl. lia.
  - reflexivity.
  - by_eval.
Defined.

(** The second variant on a 1 by 1 canvas at pixel ratio 2: a bitmap
    of 2 by 2 white pixels. *)
Lemma V2_fill_stays_in_region_witness :
  exists c' wr,
    V2.floodFillWith 1 1 (Qc_of_Z 2) 4 0 black (blank 2 2) 0 0
      = Some (Normal (c', wr)) /\
    NoDup wr /\
    (forall p, p ∈ wr ->
       region (1 * 2) (1 * 2) (cdata (canvas (blank 2 2))) (0, 0) p /\
       color_at (1 * 2) (cdata (canvas c')) p = black) /\
    (forall p, in_bounds (1 * 2) (1 * 2) p -> p ∉ wr ->
       color_at (1 * 2) (cdata (canvas c')) p
       = color_at (1 * 2) (cdata (canvas (blank 2 2))) p).
Proof.
  apply (V2_fill_stays_in_region 1 1 2 4 0 black (blank 2 2) 0 0).
  - reflexivity.
  - reflexivity.
  - reflexivity.
  - unfold in_bounds. simpl. lia.
  - unfold valid_color. simpl. lia.
  - reflexivity.
  - by_eval.
Defined.

(** The counter on a 3 by 2 canvas at the ratio 1.5: row width 4.5 and
    [maxIterations] 13.5, which rounds up to 14. *)
Lemma V2_iterations_count_witness :
  let W := (Qc_of_Z 3 * one_and_a_half)%Qc in
  let H := (Qc_of_Z 2 * one_and_a_half)%Qc in
  let maxIterations :=
    (Qc_of_Z 3 * Qc_of_Z 2 * one_and_a_half * one_and_a_half)%Qc in
  exists fin : V2.CountedState,
    V2.loop W H white black maxIterations 14
            (V2.mkCounted (mkLoop (white_pixels 12) [(0, 0)] ∅ []) 0)
      = Some fin /\
    V2.iterations fin + Z.of_nat (length (stack (V2.loop_state fin)))
      = 1 + 4 * Z.of_nat (length (written (V2.loop_state fin))) /\
    V2.iterations fin <= Qceiling maxIterations /\
    (stack (V2.loop_state fin) = [] ->
     4 * Z.of_nat (length (written (V2.loop_state fin))) + 1
       <= Qceiling maxIterations).
Proof.
  apply (V2_iterations_count
           (Qc_of_Z 3 * one_and_a_half) (Qc_of_Z 2 * one_and_a_half)
           white black
           (Qc_of_Z 3 * Qc_of_Z 2 * one_and_a_half * one_and_a_half)
           14 (white_pixels 12) (0, 0)).
  by_eval.
Defined.

(** The blue pixel in front of four white ones is a region of its own:
    five iterations fill it, and five is the cap of the second variant
    on this canvas. *)
Lemma V2_fills_like_V1_under_cap_witness :
  let c1 := mkComponent
              (mkCanvas 5 1 ([0; 0; 0; 255] ++ white_pixels 4))
              (History.saveToHistory 50 History.initial
                 (mkDrawingState ([0; 0; 0; 255] ++ white_pixels 4) 0)) in
  exists c2,
    V2.floodFillWith 5 1 (Qc_of_Z 1) 5 0 black blue_then_white 0 0
      = Some (Normal (c2, [(0, 0)])) /\
    canvas c2 = canvas c1.
Proof.
  apply (V2_fills_like_V1_under_cap 5 1 1 9 5 0 black blue_then_white _
           [(0, 0)] 0 0).
  - lia.
  - reflexivity.
  - reflexivity.
  - reflexivity.
  - by_eval.
  - by_eval.
Defined.

Lemma V2_leaves_wide_uniform_canvas_unfilled_witness :
  exists c' wr,
    V2.floodFillWith 2 1 (Qc_of_Z 1) 2 0 black (blank 2 1) 0 0
      = Some (Normal (c', wr)) /\
    Z.of_nat (length wr) < (2 * 1) * (1 * 1) /\
    exists p, in_bounds (2 * 1) (1 * 1) p /\
              color_at (2 * 1) (cdata (canvas c')) p
              = color_at (2 * 1) (cdata (canvas (blank 2 1))) p /\
              color_at (2 * 1) (cdata (canvas c')) p <> black.
Proof.
  apply (V2_leaves_wide_uniform_canvas_unfilled 2 1 1 2 0 black (blank 2 1) 0 0).
  - reflexivity.
  - reflexivity.
  - reflexivity.
  - unfold in_bounds. simpl. lia.
  - lia.
  - unfold valid_color. simpl. lia.
  - exact blank_2x1_uniform.
  - reflexivity.
  - by_eval.
Defined.


(** The freshly mounted 1 by 1 component. *)
Lemma surface_stays_synced_witness :
  (forall fuel now fillColor x y c' wr,
     V1.floodFillWith fuel now fillColor fresh1x1 x y = Some (Normal (c', wr)) ->
     Surface.synced c') /\
  (forall now, exists c',
     Surface.clearCanvas now fresh1x1 = Normal c' /\ Surface.synced c' /\
     cdata (canvas c') = replicate (length (cdata (canvas fresh1x1))) 0) /\
  (exists c', Surface.undo fresh1x1 = Normal c' /\ Surface.synced c') /\
  (exists c', Surface.redo fresh1x1 = Normal c' /\ Surface.synced c').
Proof. apply (surface_stays_synced fresh1x1). exact fresh1x1_synced. Defined.

Lemma fill_then_undo_restores_witness :
  exists c1 wr c2,
    V1.floodFillWith 5 1 black fresh1x1 0 0 = Some (Normal (c1, wr)) /\
    Surface.undo c1 = Normal c2 /\
    canvas c2 = canvas fresh1x1 /\
    Surface.redo c2 = Normal c1.
Proof.
  apply (fill_then_undo_restores 5 1 black fresh1x1 0 0).
  - exact fresh1x1_synced.
  - reflexivity.
  - unfold in_bounds. simpl. lia.
  - unfold valid_color. simpl. lia.
  - reflexivity.
  - by_eval.
Defined.

Lemma clear_then_fill_covers_canvas_witness :
  exists c1 c2 wr,
    Surface.clearCanvas 1 fresh1x1 = Normal c1 /\
    V1.floodFill 5 2 "#ff0000" c1 0 0 = Some (Normal (c2, wr)) /\
    (forall p, in_bounds 1 1 p ->
       color_at 1 (cdata (canvas c2)) p = hexToRgb "#ff0000") /\
    Z.of_nat (length wr) = 1 * 1.
Proof.
  apply (clear_then_fill_covers_canvas 5 1 2 "#ff0000" fresh1x1 0 0).
  - exact fresh1x1_synced.
  - reflexivity.
  - unfold in_bounds. simpl. lia.
  - by_eval.
Defined.

(** Picking the second of two recent colours again. *)
Lemma repicked_colour_moves_to_front_witness :
  addToRecentColors "b" ["a"; "b"]%string
    = "b"%string :: filter (λ x, x ≠ "b"%string) ["a"; "b"]%string /\
  addToRecentColors "b" ["a"; "b"]%string ≡ₚ ["a"; "b"]%string /\
  addToRecentColors "b" (addToRecentColors "b" ["a"; "b"]%string)
    = addToRecentColors "b" ["a"; "b"]%string.
Proof.
  apply (repicked_colour_moves_to_front "b" ["a"; "b"]%string).
  - apply (bool_decide_unpack _). vm_compute. exact I.
  - simpl. lia.
  - apply (bool_decide_unpack _). vm_compute. exact I.
Defined.

(** A ninth colour. *)
Lemma new_colour_drops_the_oldest_witness :
  addToRecentColors "#000009" eight_colours = "#000009"%string :: take 7 eight_colours.
Proof.
  apply (new_colour_drops_the_oldest "#000009" eight_colours).
  - reflexivity.
  - apply (bool_decide_unpack _). vm_compute. exact I.
Defined.

Lemma hexToRgb_hash_optional_witness :
  hexToRgb (String "#" "ff8000") = hexToRgb "ff8000".
Proof.
  apply (hexToRgb_hash_optional "ff8000"). intros rest Heq. discriminate Heq.
Defined.

(** Two pushes into a history of capacity 3, then three and one more. *)
Lemma key_undo_is_click_undo_until_full_witness :
  let l := Shortcuts.push_each 3 [1; 2] Shortcuts.mounted in
  Shortcuts.key_undo l = Shortcuts.click_undo l.
Proof. apply (key_undo_is_click_undo_until_full 3 [1; 2]). by_eval. Defined.

Lemma key_undo_after_eviction_witness :
  let l := Shortcuts.push 3 (Shortcuts.push_each 3 [1; 2; 3] Shortcuts.mounted) 4 in
  exists l1 l2 e_last e_before,
    at_index [1; 2; 3] (3 - 1) = Some e_last /\
    at_index [1; 2; 3] (3 - 2) = Some e_before /\
    Shortcuts.click_undo l = Normal (Some (l1, e_last)) /\
    Shortcuts.key_undo l = Normal (Some (l2, e_before)) /\
    Shortcuts.state l1 = Shortcuts.state l2 /\
    History.historyStep (Shortcuts.state l1) = 3 - 2.
Proof. apply (key_undo_after_eviction 3 [1; 2; 3] 4); [lia|reflexivity]. Defined.

End MoreExamples.
